(** * The unbound plugin of CoreDNS: a model of unbound.go and setup.go

    The plugin intercepts the queries of its zones, resolves them with
    libunbound (one context for queries that came over UDP, one for TCP),
    counts the outcome, and writes the answer back after removing what a
    client without the DO bit must not see.

    The development follows the two source files.  libunbound, the DNS
    message library and the host server are collaborators: their data is
    modelled as records, their behaviour is a member of the class [Env]. *)

From Stdlib Require Import ZArith String Ascii DecimalString DecimalPos DecimalZ.
From stdpp Require Import gmap strings list fin_maps.

Local Open Scope Z_scope.
Local Open Scope string_scope.

(** ** Errors

    A Go [error] is observed through its [Error()] message; the nil error
    is [None] of [option error]. *)

Record error := errorString { Error : string }.

(** [errors.New] *)
Definition errors_New (msg : string) : error := errorString msg.

(** ** DNS messages (github.com/miekg/dns) *)

Definition RcodeSuccess : Z := 0.
Definition RcodeServerFailure : Z := 2.

(** The table [dns.RcodeToString] of the message library. *)
Definition RcodeToString : gmap Z string :=
  list_to_map
    [ (0, "NOERROR"); (1, "FORMERR"); (2, "SERVFAIL"); (3, "NXDOMAIN");
      (4, "NOTIMP"); (5, "REFUSED"); (6, "YXDOMAIN"); (7, "YXRRSET");
      (8, "NXRRSET"); (9, "NOTAUTH"); (10, "NOTZONE"); (16, "BADSIG");
      (17, "BADKEY"); (18, "BADTIME"); (19, "BADMODE"); (20, "BADNAME");
      (21, "BADALG"); (22, "BADTRUNC"); (23, "BADCOOKIE") ].

(** [strconv.Itoa] *)
Definition Itoa (n : Z) : string := NilZero.string_of_int (Z.to_int n).

Record RR_Header := {
  RRName : string;
  Rrtype : Z;
  Class : Z;
  Ttl : Z;
}.

(** A resource record is an interface value; the code only asks whether
    its dynamic type is the OPT pseudo-record. *)
Inductive RR :=
| OPT (hdr : RR_Header) (options : list (Z * string))
| RFC3597 (hdr : RR_Header) (rdata : string).

Definition Header (rr : RR) : RR_Header :=
  match rr with OPT h _ => h | RFC3597 h _ => h end.

(** The second result of the type assertion of [rr] to [dns.OPT]. *)
Definition is_OPT (rr : RR) : bool :=
  match rr with OPT _ _ => true | RFC3597 _ _ => false end.

Record Question := {
  QuestionName : string;
  Qtype : Z;
  Qclass : Z;
}.

(** [dns.Msg].  [Question] is compared with nil by the code, so the nil
    slice is kept apart from the empty one. *)
Record Msg := {
  Id : Z;
  Response : bool;
  Opcode : Z;
  Authoritative : bool;
  Truncated : bool;
  RecursionDesired : bool;
  RecursionAvailable : bool;
  Zero : bool;
  AuthenticatedData : bool;
  CheckingDisabled : bool;
  Rcode : Z;
  Compress : bool;
  Questions : option (list Question);
  Answer : list RR;
  Ns : list RR;
  Extra : list RR;
}.

Definition set_Id (m : Msg) (id : Z) : Msg :=
  {| Id := id; Response := Response m; Opcode := Opcode m;
     Authoritative := Authoritative m; Truncated := Truncated m;
     RecursionDesired := RecursionDesired m;
     RecursionAvailable := RecursionAvailable m; Zero := Zero m;
     AuthenticatedData := AuthenticatedData m;
     CheckingDisabled := CheckingDisabled m; Rcode := Rcode m;
     Compress := Compress m; Questions := Questions m; Answer := Answer m;
     Ns := Ns m; Extra := Extra m |}.

Definition set_Extra (m : Msg) (extra : list RR) : Msg :=
  {| Id := Id m; Response := Response m; Opcode := Opcode m;
     Authoritative := Authoritative m; Truncated := Truncated m;
     RecursionDesired := RecursionDesired m;
     RecursionAvailable := RecursionAvailable m; Zero := Zero m;
     AuthenticatedData := AuthenticatedData m;
     CheckingDisabled := CheckingDisabled m; Rcode := Rcode m;
     Compress := Compress m; Questions := Questions m; Answer := Answer m;
     Ns := Ns m; Extra := extra |}.

(** ** libunbound (go-libunbound) *)

(** [unbound.Result]; [AnswerPacket] is a pointer, [Rtt] a duration in
    nanoseconds. *)
Record Result := {
  ResultRcode : Z;
  AnswerPacket : option Msg;
  HaveData : bool;
  NxDomain : bool;
  Secure : bool;
  Bogus : bool;
  WhyBogus : string;
  Rtt : Z;
}.

(** The configuration calls the plugin makes on a context. *)
Inductive Call :=
| SetOption (opt val : string)
| Config (fname : string)
| AddTaFile (fname : string).

(** A context is an opaque handle of the library.  Its state is the
    history of the configuration calls made on it, failed ones included:
    [handle] tells the contexts apart, in the order [unbound.New] made
    them. *)
Record ub_ctx := {
  handle : nat;
  calls : list Call;
}.

Definition unbound_New (h : nat) : ub_ctx := {| handle := h; calls := [] |}.

(** ** The request, as [request.Request] shows it to the plugin *)

Record Request := {
  Proto : string;
  QName : string;
  QType : Z;
  QClass : Z;
  Do : bool;
  ReqId : Z;
}.

(** ** What a query changes: the two metrics and the response writer *)

Record World := {
  RcodeCount : gmap (string * string) nat;
  RequestDuration : gmap string (list Z);
  written : list Msg;
}.

(** A handler either returns or panics on a nil pointer; the world it
    leaves behind is kept in both cases. *)
Inductive outcome (A : Type) :=
| Returns (a : A)
| Panics.
Arguments Returns {A} a.
Arguments Panics {A}.

Definition M (A : Type) : Type := World -> World * outcome A.

Definition ret {A} (a : A) : M A := fun w => (w, Returns a).

Definition bind {A B} (m : M A) (k : A -> M B) : M B :=
  fun w => match m w with
           | (w', Returns a) => k a w'
           | (w', Panics) => (w', Panics)
           end.

(** Reading through a pointer. *)
Definition deref {A} (p : option A) : M A :=
  fun w => match p with
           | Some a => (w, Returns a)
           | None => (w, Panics)
           end.

Declare Scope go_scope.
Delimit Scope go_scope with go.
Notation "x <- c1 ;; c2" := (bind c1 (fun x => c2))
  (at level 100, c1 at next level, right associativity) : go_scope.
Notation "c1 ;;; c2" := (bind c1 (fun _ => c2))
  (at level 100, right associativity) : go_scope.

Definition Handler : Type := string -> Request -> M (Z * option error).

(** ** The plugin *)

(** [Unbound]: the UDP context [u], the TCP context [t], the zones, the
    strict flag and the next handler of the chain (nil is [None]). *)
Record Unbound := {
  u : ub_ctx;
  t : ub_ctx;
  from : list string;
  except : list string;
  strict : bool;
  Next : option Handler;
}.

Definition set_u (ub : Unbound) (c : ub_ctx) : Unbound :=
  {| u := c; t := t ub; from := from ub; except := except ub;
     strict := strict ub; Next := Next ub |}.
Definition set_t (ub : Unbound) (c : ub_ctx) : Unbound :=
  {| u := u ub; t := c; from := from ub; except := except ub;
     strict := strict ub; Next := Next ub |}.
Definition set_from (ub : Unbound) (l : list string) : Unbound :=
  {| u := u ub; t := t ub; from := l; except := except ub;
     strict := strict ub; Next := Next ub |}.
Definition set_except (ub : Unbound) (l : list string) : Unbound :=
  {| u := u ub; t := t ub; from := from ub; except := l;
     strict := strict ub; Next := Next ub |}.
Definition set_strict (ub : Unbound) (b : bool) : Unbound :=
  {| u := u ub; t := t ub; from := from ub; except := except ub;
     strict := b; Next := Next ub |}.

(** What the plugin does not define itself.
    - [ub_reply c op]: the error libunbound answers when [op] is called
      on a context in state [c] (nil on success);
    - [ub_resolve c name rrtype rrclass]: the two results of [Resolve];
    - [quote]: the verb %q of fmt on a string;
    - [NormalizeExact]: [plugin.Host(s).NormalizeExact()];
    - [ArgErr]: the controller's error for the directive it stands on;
    - [u_match]: the method [match] of the plugin, kept in another file
      of the package;
    - [filter]: the call [filter(m, dnssec)], likewise kept elsewhere; it
      changes the message it is given in place. *)
Class Env := {
  ub_reply : ub_ctx -> Call -> option error;
  ub_resolve : ub_ctx -> string -> Z -> Z -> option Result * option error;
  quote : string -> string;
  NormalizeExact : string -> list string;
  ArgErr : string -> error;
  u_match : Unbound -> Request -> bool;
  filter : Msg -> Msg;
}.

(** The loop of ServeDNS over [Extra]: at the first index whose record is
    an OPT, the slice is re-sliced around it and the loop breaks.  [n]
    bounds the iterations that are left. *)
Fixpoint strip_loop (n i : nat) (extra : list RR) : list RR :=
  match n with
  | O => extra
  | S n' =>
      match extra !! i with
      | None => extra
      | Some rr =>
          if is_OPT rr then (take i extra ++ drop (S i) extra)%list
          else strip_loop n' (S i) extra
      end
  end.

Definition strip_OPT (extra : list RR) : list RR :=
  strip_loop (length extra) 0 extra.

(** [RcodeCount.WithLabelValues(server, rc).Add(1)] *)
Definition RcodeCount_Add (server rc : string) : M unit :=
  fun w =>
    ({| RcodeCount :=
          <[(server, rc) := S (default 0%nat (RcodeCount w !! (server, rc)))]>
            (RcodeCount w);
        RequestDuration := RequestDuration w;
        written := written w |}, Returns tt).

(** [RequestDuration.WithLabelValues(server)]: the histogram of the
    server, made on first use. *)
Definition RequestDuration_WithLabelValues (server : string) : M unit :=
  fun w =>
    ({| RcodeCount := RcodeCount w;
        RequestDuration :=
          <[server := default [] (RequestDuration w !! server)]>
            (RequestDuration w);
        written := written w |}, Returns tt).

(** [Observe]; the observed value stands for [d.Seconds()]. *)
Definition RequestDuration_Observe (server : string) (d : Z) : M unit :=
  fun w =>
    ({| RcodeCount := RcodeCount w;
        RequestDuration :=
          <[server := (default [] (RequestDuration w !! server) ++ [d])%list]>
            (RequestDuration w);
        written := written w |}, Returns tt).

(** [w.WriteMsg(m)] *)
Definition WriteMsg (m : Msg) : M unit :=
  fun w =>
    ({| RcodeCount := RcodeCount w;
        RequestDuration := RequestDuration w;
        written := (written w ++ [m])%list |}, Returns tt).

(** [plugin.Error] and [plugin.NextOrFailure] of the host server. *)
Definition plugin_Error (name : string) (err : error) : error :=
  errorString ("plugin/" +:+ name +:+ ": " +:+ Error err).

Definition NextOrFailure (name : string) (next : option Handler)
    (server : string) (r : Request) : M (Z * option error) :=
  match next with
  | Some h => h server r
  | None =>
      ret (RcodeServerFailure,
           Some (plugin_Error name (errors_New "no next plugin found")))
  end.

(** [plugin.ErrOnce] *)
Definition ErrOnce : error :=
  errors_New "this plugin can only be used once per Server Block".

(** The package variable [options]. *)
Definition options : gmap string string :=
  {[ "msg-cache-size" := "0"; "rrset-cache-size" := "0" ]}.

Section plugin.
Context `{Env}.

(** A configuration call on a context: the call is recorded, the library
    answers. *)
Definition ctx_call (c : ub_ctx) (op : Call) : ub_ctx * option error :=
  ({| handle := handle c; calls := (calls c ++ [op])%list |}, ub_reply c op).

(** [Name] *)
Definition Name (ub : Unbound) : string := "unbound".

(** [setOption] *)
Definition setOption (ub : Unbound) (k v : string) : Unbound * option error :=
  let k := k +:+ ":" in
  let '(cu, _) := ctx_call (u ub) (SetOption k v) in
  let ub := set_u ub cu in
  let '(ct, err) := ctx_call (t ub) (SetOption k v) in
  let ub := set_t ub ct in
  match err with
  | Some e =>
      (ub, Some (errorString
                   ("failed to set option " +:+ quote k +:+ " with value "
                    +:+ quote v +:+ ": " +:+ Error e)))
  | None => (ub, None)
  end.

(** [config] *)
Definition config (ub : Unbound) (f : string) : Unbound * option error :=
  let '(cu, err) := ctx_call (u ub) (Config f) in
  let ub := set_u ub cu in
  match err with
  | Some e =>
      (ub, Some (errorString
                   ("failed to read config file (" +:+ f +:+ ") UDP context: "
                    +:+ Error e)))
  | None =>
      let '(ct, err) := ctx_call (t ub) (Config f) in
      let ub := set_t ub ct in
      match err with
      | Some e =>
          (ub, Some (errorString
                       ("failed to read config file (" +:+ f
                        +:+ ") TCP context: " +:+ Error e)))
      | None => (ub, None)
      end
  end.

(** [setAnchor] *)
Definition setAnchor (ub : Unbound) (f : string) : Unbound * option error :=
  let '(cu, err) := ctx_call (u ub) (AddTaFile f) in
  let ub := set_u ub cu in
  match err with
  | Some e =>
      (ub, Some (errorString
                   ("failed to read trust anchor file (" +:+ f
                    +:+ ") UDP context: " +:+ Error e)))
  | None =>
      let '(ct, err) := ctx_call (t ub) (AddTaFile f) in
      let ub := set_t ub ct in
      match err with
      | Some e =>
          (ub, Some (errorString
                       ("failed to read trust anchor file (" +:+ f
                        +:+ ") TCP context: " +:+ Error e)))
      | None => (ub, None)
      end
  end.

(** The loop of [New] over [options], in the order [kvs] in which the map
    is ranged over; the second component collects the warnings logged. *)
Fixpoint New_loop (ub : Unbound) (kvs : list (string * string))
    : Unbound * list string :=
  match kvs with
  | [] => (ub, [])
  | (k, v) :: kvs' =>
      let '(ub', err) := setOption ub k v in
      let '(ub'', warnings) := New_loop ub' kvs' in
      match err with
      | Some e => (ub'', ("Could not set option: " +:+ Error e) :: warnings)
      | None => (ub'', warnings)
      end
  end.

(** [New].  Go leaves the order of a range over a map open: [kvs] is the
    order taken, a permutation of [map_to_list options]. *)
Definition New (kvs : list (string * string)) : Unbound * list string :=
  let udp := unbound_New 0 in
  let tcp := unbound_New 1 in
  let '(tcp, _) := ctx_call tcp (SetOption "tcp-upstream:" "yes") in
  let ub := {| u := udp; t := tcp; from := []; except := [];
               strict := false; Next := None |} in
  New_loop ub kvs.

(** The switch of ServeDNS on the transport.  It has no default case:
    [res] and [err] keep their zero values, nil, for any other
    transport. *)
Definition resolve (ub : Unbound) (r : Request)
    : option Result * option error :=
  if String.eqb (Proto r) "tcp"
  then ub_resolve (t ub) (QName r) (QType r) (QClass r)
  else if String.eqb (Proto r) "udp"
  then ub_resolve (u ub) (QName r) (QType r) (QClass r)
  else (None, None).

(** The label of a response code: its name in [dns.RcodeToString], its
    decimal form when the table has none. *)
Definition rcode_label (rcode : Z) : string :=
  match RcodeToString !! rcode with
  | Some s => s
  | None => Itoa rcode
  end.

(** [ServeDNS]; [server] is [metrics.WithServer(ctx)]. *)
Definition ServeDNS (ub : Unbound) (server : string) (r : Request)
    : M (Z * option error) :=
  if negb (u_match ub r) then NextOrFailure (Name ub) (Next ub) server r
  else
    let '(res, err) := resolve ub r in
    (rcode <- match err with
              | None =>
                  (res' <- deref res ;;
                   pkt <- deref (AnswerPacket res') ;;
                   ret (Rcode pkt))%go
              | Some _ => ret RcodeServerFailure
              end ;;
     let rc := rcode_label rcode in
     RcodeCount_Add server rc ;;;
     RequestDuration_WithLabelValues server ;;;
     res' <- deref res ;;
     RequestDuration_Observe server (Rtt res') ;;;
     noquestion <- match err with
                   | Some _ => ret true
                   | None =>
                       (pkt <- deref (AnswerPacket res') ;;
                        ret (bool_decide (Questions pkt = None)))%go
                   end ;;
     if noquestion : bool then ret (RcodeServerFailure, err)
     else if strict ub && Bogus res'
     then ret (RcodeServerFailure, Some (errors_New (WhyBogus res')))
     else
       pkt <- deref (AnswerPacket res') ;;
       let pkt :=
         if negb (Do r)
         then filter (set_Extra pkt (strip_OPT (Extra pkt)))
         else pkt in
       let pkt := set_Id pkt (ReqId r) in
       WriteMsg pkt ;;;
       ret (0, None))%go.

(** *** setup.go *)

(** [normalizeHost] *)
Definition normalizeHost (valueName hostStr : string) : string + error :=
  match NormalizeExact hostStr with
  | [h] =>
      if bool_decide (0 < String.length h)%nat then inl h
      else inr (errors_New ("Invalid '" +:+ valueName
             +:+ "' value should be normalizable as a non-empty domain name: "
             +:+ hostStr))
  | _ => inr (errors_New ("Invalid '" +:+ valueName
             +:+ "' value should be normalizable as a non-empty domain name: "
             +:+ hostStr))
  end.

(** The two loops that normalize a list of zones in place and return at
    the first one that fails. *)
Fixpoint normalize_all (valueName : string) (l : list string)
    : list string + error :=
  match l with
  | [] => inl []
  | str :: l' =>
      match normalizeHost valueName str with
      | inr e => inr e
      | inl host =>
          match normalize_all valueName l' with
          | inr e => inr e
          | inl hosts => inl (host :: hosts)
          end
      end
  end.

(** The controller, after tokenizing: every occurrence of the directive
    with the arguments on its line and the lines of its block, each a
    first token [c.Val()] with its remaining arguments. *)
Record Directive := {
  Args : list string;
  Block : list (string * list string);
}.

Record Controller := {
  Directives : list Directive;
  ServerBlockKeys : list string;
}.

(** One turn of the loop over [c.NextBlock()]: the switch on [c.Val()]. *)
Definition parse_line (ub : Unbound) (val : string) (args : list string)
    : Unbound + error :=
  if String.eqb val "except" then
    if bool_decide (length args = 0%nat) then inr (ArgErr val)
    else match normalize_all "except" args with
         | inr e => inr e
         | inl hosts => inl (set_except ub hosts)
         end
  else if String.eqb val "option" then
    match args with
    | [k; v] =>
        match setOption ub k v with
        | (_, Some e) => inr e
        | (ub', None) => inl ub'
        end
    | _ => inr (ArgErr val)
    end
  else if String.eqb val "config" then
    match args with
    | [f] =>
        match config ub f with
        | (_, Some e) => inr e
        | (ub', None) => inl ub'
        end
    | _ => inr (ArgErr val)
    end
  else if String.eqb val "anchor" then
    match args with
    | [f] =>
        match setAnchor ub f with
        | (_, Some e) => inr e
        | (ub', None) => inl (set_strict ub' true)
        end
    | _ => inr (ArgErr val)
    end
  else inr (ArgErr val).

Fixpoint parse_block (ub : Unbound) (lines : list (string * list string))
    : Unbound + error :=
  match lines with
  | [] => inl ub
  | (val, args) :: lines' =>
      match parse_line ub val args with
      | inr e => inr e
      | inl ub' => parse_block ub' lines'
      end
  end.

(** The loop over [c.Next()]; [i] counts the occurrences seen. *)
Fixpoint parse_loop (ub : Unbound) (i : nat) (keys : list string)
    (ds : list Directive) : Unbound + error :=
  match ds with
  | [] => inl ub
  | d :: ds' =>
      if bool_decide (0 < i)%nat then inr ErrOnce
      else
        let zones :=
          if bool_decide (length (Args d) = 0%nat) then keys else Args d in
        match normalize_all "from" zones with
        | inr e => inr e
        | inl hosts =>
            match parse_block (set_from ub hosts) (Block d) with
            | inr e => inr e
            | inl ub' => parse_loop ub' (S i) keys ds'
            end
        end
  end.

(** [unboundParse]; [kvs] is the order in which [New] ranges over
    [options]. *)
Definition unboundParse (kvs : list (string * string)) (c : Controller)
    : Unbound + error :=
  let '(ub, _) := New kvs in
  parse_loop ub 0 (ServerBlockKeys c) (Directives c).

(** The closure [setup] hands to [AddPlugin]: the next handler is
    stored, nothing else changes. *)
Definition AddPlugin (ub : Unbound) (next : option Handler) : Unbound :=
  {| u := u ub; t := t ub; from := from ub; except := except ub;
     strict := strict ub; Next := next |}.

(** *** Shorthands for the statements *)

Definition option_call (k v : string) : Call := SetOption (k +:+ ":") v.

(** The message of the error [setOption] makes from the TCP error. *)
Definition setOption_error (k v : string) (cause : error) : error :=
  errorString ("failed to set option " +:+ quote (k +:+ ":")
               +:+ " with value " +:+ quote v +:+ ": " +:+ Error cause).

Definition file_error (what f transport : string) (cause : error) : error :=
  errorString ("failed to read " +:+ what +:+ " (" +:+ f +:+ ") "
               +:+ transport +:+ " context: " +:+ Error cause).

(** The answer ServeDNS writes for the packet [pkt] of the engine. *)
Definition answer_for (r : Request) (pkt : Msg) : Msg :=
  set_Id (if negb (Do r)
          then filter (set_Extra pkt (strip_OPT (Extra pkt)))
          else pkt) (ReqId r).

End plugin.

(** The world after one increment of the counter of [(server, rc)] and
    one observation of [d] in the histogram of [server]. *)
Definition measured (server rc : string) (d : Z) (w : World) : World :=
  {| RcodeCount :=
       <[(server, rc) := S (default 0%nat (RcodeCount w !! (server, rc)))]>
         (RcodeCount w);
     RequestDuration :=
       <[server := (default [] (RequestDuration w !! server) ++ [d])%list]>
         (RequestDuration w);
     written := written w |}.

(** The world after one increment of the counter and the making of the
    histogram of [server], nothing observed. *)
Definition counted (server rc : string) (w : World) : World :=
  {| RcodeCount :=
       <[(server, rc) := S (default 0%nat (RcodeCount w !! (server, rc)))]>
         (RcodeCount w);
     RequestDuration :=
       <[server := default [] (RequestDuration w !! server)]>
         (RequestDuration w);
     written := written w |}.

Definition wrote (m : Msg) (w : World) : World :=
  {| RcodeCount := RcodeCount w; RequestDuration := RequestDuration w;
     written := (written w ++ [m])%list |}.

(** The words of the specification: the first OPT record found is
    removed, every other record stays. *)
Fixpoint remove_first_OPT (extra : list RR) : list RR :=
  match extra with
  | [] => []
  | rr :: rest => if is_OPT rr then rest else rr :: remove_first_OPT rest
  end.

Definition no_OPT (l : list RR) : Prop := Forall (fun rr => is_OPT rr = false) l.

(** ** A concrete environment

    Instances of [Env] on which the plugin can be run. *)

Definition dquote : string := String (ascii_of_nat 34) EmptyString.

(** %q on a string of printable ASCII without quote or backslash. *)
Definition quote_plain (s : string) : string := dquote +:+ s +:+ dquote.

Definition has_suffix (suffix s : string) : bool :=
  let n := String.length s in
  let k := String.length suffix in
  bool_decide (k <= n)%nat && String.eqb (substring (n - k) k s) suffix.

(** Names and zones are absolute and lower-cased: a subdomain of a zone
    ends with a dot followed by the zone, and every name is under the
    root. *)
Definition under_zone (name zone : string) : bool :=
  String.eqb zone "." || String.eqb name zone || has_suffix ("." +:+ zone) name.

(** Modelled from the spec: the method [match] of the plugin, whose
    source is kept in another file of the package.  A name is in scope
    iff it is equal to or a subdomain of an entry of [from] and of no
    entry of [except]. *)
Definition match_spec (ub : Unbound) (r : Request) : bool :=
  existsb (under_zone (QName r)) (from ub)
  && negb (existsb (under_zone (QName r)) (except ub)).

Definition TypeSIG : Z := 24.
Definition TypeOPT : Z := 41.
Definition TypeRRSIG : Z := 46.
Definition TypeNSEC : Z := 47.
Definition TypeNSEC3 : Z := 50.
Definition TypeNSEC3PARAM : Z := 51.

(** Modelled from the spec: the record types that only serve DNSSEC,
    signatures and the NSEC family; the package names them in another
    file.  An OPT record is not one of them. *)
Definition dnssec_only (rr : RR) : bool :=
  match rr with
  | OPT _ _ => false
  | RFC3597 h _ =>
      bool_decide (Rrtype h ∈
                     [TypeSIG; TypeRRSIG; TypeNSEC; TypeNSEC3; TypeNSEC3PARAM])
  end.

(** Modelled from the spec: the function [filter], whose source is kept
    in another file of the package.  The records that only serve DNSSEC
    are removed from every section; nothing else of the message
    changes. *)
Definition filter_spec (m : Msg) : Msg :=
  let keep := List.filter (fun rr => negb (dnssec_only rr)) in
  {| Id := Id m; Response := Response m; Opcode := Opcode m;
     Authoritative := Authoritative m; Truncated := Truncated m;
     RecursionDesired := RecursionDesired m;
     RecursionAvailable := RecursionAvailable m; Zero := Zero m;
     AuthenticatedData := AuthenticatedData m;
     CheckingDisabled := CheckingDisabled m; Rcode := Rcode m;
     Compress := Compress m; Questions := Questions m;
     Answer := keep (Answer m); Ns := keep (Ns m); Extra := keep (Extra m) |}.

(** The environment in which libunbound answers the configuration calls
    with [reply] and every [Resolve] with [answer]. *)
Definition env_of (reply : ub_ctx -> Call -> option error)
    (answer : ub_ctx -> option Result * option error) : Env :=
  {| ub_reply := reply;
     ub_resolve := fun c _ _ _ => answer c;
     quote := quote_plain;
     NormalizeExact := fun s => [s];
     ArgErr := fun val => errors_New ("Wrong argument count or unexpected line ending after '" +:+ val +:+ "'");
     u_match := match_spec;
     filter := filter_spec |}.

Definition hdr (name : string) (rrtype : Z) : RR_Header :=
  {| RRName := name; Rrtype := rrtype; Class := 1; Ttl := 300 |}.

Definition reply_msg (rcode : Z) (q : option (list Question))
    (extra : list RR) : Msg :=
  {| Id := 4242; Response := true; Opcode := 0; Authoritative := false;
     Truncated := false; RecursionDesired := true;
     RecursionAvailable := true; Zero := false; AuthenticatedData := false;
     CheckingDisabled := false; Rcode := rcode; Compress := false;
     Questions := q;
     Answer := [RFC3597 (hdr "www.example.org." 1) "192.0.2.1";
                RFC3597 (hdr "www.example.org." TypeRRSIG) "sig"];
     Ns := []; Extra := extra |}.

Definition result_of (pkt : option Msg) (bogus : bool) (why : string)
    : Result :=
  {| ResultRcode := 0; AnswerPacket := pkt; HaveData := true;
     NxDomain := false; Secure := false; Bogus := bogus; WhyBogus := why;
     Rtt := 1500000 |}.

Definition question_www : list Question :=
  [{| QuestionName := "www.example.org."; Qtype := 1; Qclass := 1 |}].

Definition query (proto : string) (do : bool) : Request :=
  {| Proto := proto; QName := "www.example.org."; QType := 1; QClass := 1;
     Do := do; ReqId := 7 |}.

Definition world0 : World :=
  {| RcodeCount := ∅; RequestDuration := ∅; written := [] |}.

Definition pool (strict : bool) : Unbound :=
  {| u := unbound_New 0; t := unbound_New 1; from := ["example.org."];
     except := ["internal.example.org."]; strict := strict; Next := None |}.

(** libunbound refusing every configuration call on the UDP context
    (the first one made), on the TCP context, or on both. *)
Definition refuse_on (handles : list nat) (c : ub_ctx) (op : Call)
    : option error :=
  if bool_decide (handle c ∈ handles) then Some (errors_New "syntax error")
  else None.

Definition no_answer (c : ub_ctx) : option Result * option error :=
  (None, Some (errors_New "syntax error")).

Definition env_udp_refuses : Env := env_of (refuse_on [0%nat]) no_answer.
Definition env_tcp_refuses : Env := env_of (refuse_on [1%nat]) no_answer.
Definition env_all_refuse : Env := env_of (refuse_on [0%nat; 1%nat]) no_answer.

Definition server0 : string := "dns://.:53".

Definition opt_rr : RR := OPT (hdr "." TypeOPT) [].
Definition opt_rr' : RR := OPT (hdr "." TypeOPT) [(10, "cookie")].
Definition rrsig_rr : RR := RFC3597 (hdr "www.example.org." TypeRRSIG) "sig".
Definition a_rr : RR := RFC3597 (hdr "ns.example.org." 1) "192.0.2.53".

Definition engine_failure : error := errors_New "error sending query".

(** libunbound accepting every configuration call and answering every
    [Resolve] with [answer]. *)
Definition env_answering (answer : option Result * option error) : Env :=
  env_of (fun _ _ => None) (fun _ => answer).

Definition c_anchor : Controller :=
  {| Directives :=
       [{| Args := ["example.org."];
           Block := [("except", ["internal.example.org."]);
                     ("anchor", ["root.key"])] |}];
     ServerBlockKeys := ["."] |}.

Definition answer_error : option Result * option error :=
  (Some (result_of None false ""), Some engine_failure).

Definition answer_error_no_result : option Result * option error :=
  (None, Some engine_failure).

Definition answer_no_question : option Result * option error :=
  (Some (result_of (Some (reply_msg 0 None [])) false ""), None).

Definition answer_bogus : option Result * option error :=
  (Some (result_of (Some (reply_msg 0 (Some question_www) [opt_rr]))
           true "signature expired"), None).

Definition answer_bogus_no_question : option Result * option error :=
  (Some (result_of (Some (reply_msg 0 None [])) true "signature expired"),
   None).

Definition extra_two_OPT : list RR := [a_rr; opt_rr; rrsig_rr; opt_rr'].

Definition answer_two_OPT : option Result * option error :=
  (Some (result_of (Some (reply_msg 3 (Some question_www) extra_two_OPT))
           false ""), None).

(** ** What a configuration asks of the contexts *)

(** The call [New] makes on the TCP context alone. *)
Definition tcp_upstream : Call := SetOption "tcp-upstream:" "yes".

(** The call a line of the block stands for; a line of zones stands for
    none. *)
Definition line_call (line : string * list string) : list Call :=
  if String.eqb line.1 "option" then
    match line.2 with
    | [k; v] => [SetOption (k +:+ ":") v]
    | _ => []
    end
  else if String.eqb line.1 "config" then
    match line.2 with
    | [f] => [Config f]
    | _ => []
    end
  else if String.eqb line.1 "anchor" then
    match line.2 with
    | [f] => [AddTaFile f]
    | _ => []
    end
  else [].

Definition is_anchor_line (line : string * list string) : bool :=
  String.eqb line.1 "anchor".

(** The zones a directive is given: its arguments, the keys of the
    server block when it has none. *)
Definition zones_of (keys : list string) (d : Directive) : list string :=
  if bool_decide (length (Args d) = 0%nat) then keys else Args d.

(** A zone that normalizes: to exactly one name, which is not empty. *)
Definition normalizes_to `{Env} (s h : string) : Prop :=
  NormalizeExact s = [h] ∧ h ≠ "".

Definition invalid_zone (valueName hostStr : string) : error :=
  errors_New ("Invalid '" +:+ valueName
              +:+ "' value should be normalizable as a non-empty domain name: "
              +:+ hostStr).

Definition c_full : Controller :=
  {| Directives :=
       [{| Args := [];
           Block := [("except", ["internal.example.org."]);
                     ("option", ["qname-minimisation"; "yes"]);
                     ("config", ["unbound.conf"]);
                     ("except", ["lab.example.org."; "test.example.org."]);
                     ("anchor", ["root.key"])] |}];
     ServerBlockKeys := ["example.org."; "example.net."] |}.

Definition c_twice : Controller :=
  {| Directives :=
       [{| Args := ["example.org."]; Block := [] |};
        {| Args := ["example.net."]; Block := [] |}];
     ServerBlockKeys := ["."] |}.

Definition env_quiet : Env := env_of (fun _ _ => None) (fun _ => (None, None)).

(** A line the switch of the block turns down for its shape: zones
    without a zone, an option without exactly a key and a value, a file
    directive without exactly one path, or a first token it does not
    know. *)
Definition malformed_line (val : string) (args : list string) : Prop :=
  (val = "except" ∧ args = [])
  ∨ (val = "option" ∧ length args ≠ 2%nat)
  ∨ (val = "config" ∧ length args ≠ 1%nat)
  ∨ (val = "anchor" ∧ length args ≠ 1%nat)
  ∨ (val ≠ "except" ∧ val ≠ "option" ∧ val ≠ "config" ∧ val ≠ "anchor").

(** * Properties *)

(** ** The pool of contexts: setOption, config, setAnchor, New *)

Section pool.
Context `{Env}.

Lemma setOption_calls (ub : Unbound) (k v : string) :
  calls (u (setOption ub k v).1) = (calls (u ub) ++ [option_call k v])%list
  ∧ calls (t (setOption ub k v).1) = (calls (t ub) ++ [option_call k v])%list.
Proof.
  unfold setOption, ctx_call, option_call; cbn.
  by destruct (ub_reply (t _) _).
Qed.

Lemma setOption_frame (ub : Unbound) (k v : string) :
  handle (u (setOption ub k v).1) = handle (u ub)
  ∧ handle (t (setOption ub k v).1) = handle (t ub)
  ∧ strict (setOption ub k v).1 = strict ub
  ∧ from (setOption ub k v).1 = from ub
  ∧ except (setOption ub k v).1 = except ub.
Proof.
  unfold setOption, ctx_call; cbn.
  by destruct (ub_reply (t _) _).
Qed.

Lemma setOption_err (ub : Unbound) (k v : string) :
  (setOption ub k v).2 =
    setOption_error k v <$> ub_reply (t ub) (option_call k v).
Proof.
  unfold setOption, ctx_call, option_call, setOption_error; cbn.
  by destruct (ub_reply (t ub) _).
Qed.

Lemma config_udp_fails (ub : Unbound) (f : string) (e : error) :
  ub_reply (u ub) (Config f) = Some e →
  (config ub f).2 = Some (file_error "config file" f "UDP" e)
  ∧ calls (u (config ub f).1) = (calls (u ub) ++ [Config f])%list
  ∧ t (config ub f).1 = t ub.
Proof.
  intros He. unfold config, ctx_call, file_error; cbn. by rewrite He.
Qed.

Lemma config_udp_succeeds (ub : Unbound) (f : string) :
  ub_reply (u ub) (Config f) = None →
  (config ub f).2 = file_error "config file" f "TCP" <$> ub_reply (t ub) (Config f)
  ∧ calls (u (config ub f).1) = (calls (u ub) ++ [Config f])%list
  ∧ calls (t (config ub f).1) = (calls (t ub) ++ [Config f])%list.
Proof.
  intros He. unfold config, ctx_call, file_error; cbn. rewrite He; cbn.
  by destruct (ub_reply (t ub) _).
Qed.

Lemma setAnchor_udp_fails (ub : Unbound) (f : string) (e : error) :
  ub_reply (u ub) (AddTaFile f) = Some e →
  (setAnchor ub f).2 = Some (file_error "trust anchor file" f "UDP" e)
  ∧ calls (u (setAnchor ub f).1) = (calls (u ub) ++ [AddTaFile f])%list
  ∧ t (setAnchor ub f).1 = t ub.
Proof.
  intros He. unfold setAnchor, ctx_call, file_error; cbn. by rewrite He.
Qed.

Lemma setAnchor_udp_succeeds (ub : Unbound) (f : string) :
  ub_reply (u ub) (AddTaFile f) = None →
  (setAnchor ub f).2 =
    file_error "trust anchor file" f "TCP" <$> ub_reply (t ub) (AddTaFile f)
  ∧ calls (u (setAnchor ub f).1) = (calls (u ub) ++ [AddTaFile f])%list
  ∧ calls (t (setAnchor ub f).1) = (calls (t ub) ++ [AddTaFile f])%list.
Proof.
  intros He. unfold setAnchor, ctx_call, file_error; cbn. rewrite He; cbn.
  by destruct (ub_reply (t ub) _).
Qed.

Lemma config_frame (ub : Unbound) (f : string) :
  strict (config ub f).1 = strict ub.
Proof.
  unfold config, ctx_call; cbn.
  destruct (ub_reply (u ub) _); cbn; [done|].
  by destruct (ub_reply (t ub) _).
Qed.

Lemma setAnchor_frame (ub : Unbound) (f : string) :
  strict (setAnchor ub f).1 = strict ub.
Proof.
  unfold setAnchor, ctx_call; cbn.
  destruct (ub_reply (u ub) _); cbn; [done|].
  by destruct (ub_reply (t ub) _).
Qed.

(** The loop of [New] calls every option on both contexts, in order,
    whatever the library answers, and logs at most one warning each. *)
Lemma New_loop_calls (kvs : list (string * string)) (ub : Unbound) :
  calls (u (New_loop ub kvs).1)
    = (calls (u ub) ++ map (fun kv => option_call kv.1 kv.2) kvs)%list
  ∧ calls (t (New_loop ub kvs).1)
    = (calls (t ub) ++ map (fun kv => option_call kv.1 kv.2) kvs)%list
  ∧ strict (New_loop ub kvs).1 = strict ub
  ∧ (length (New_loop ub kvs).2 <= length kvs)%nat.
Proof.
  revert ub. induction kvs as [|[k v] kvs IH]; intros ub; cbn -[setOption].
  - rewrite !app_nil_r. repeat split; lia.
  - destruct (setOption ub k v) as [ub' err] eqn:Hset.
    specialize (IH ub').
    destruct (New_loop ub' kvs) as [ub'' warnings] eqn:Hloop.
    cbn in IH. destruct IH as (IHu & IHt & IHs & IHw).
    destruct (setOption_calls ub k v) as [Hu Ht].
    destruct (setOption_frame ub k v) as (_ & _ & Hs & _).
    rewrite Hset in Hu, Ht, Hs; cbn in Hu, Ht, Hs.
    assert (calls (u ub'') =
              (calls (u ub) ++ option_call k v
                 :: map (fun kv => option_call kv.1 kv.2) kvs)%list) as Eu
      by (rewrite IHu, Hu, <- app_assoc; done).
    assert (calls (t ub'') =
              (calls (t ub) ++ option_call k v
                 :: map (fun kv => option_call kv.1 kv.2) kvs)%list) as Et
      by (rewrite IHt, Ht, <- app_assoc; done).
    destruct err; cbn; repeat split; try done; try congruence; lia.
Qed.

(** The log of the loop of [New]: one warning for every option that the
    TCP context, in the state the earlier options left it in, refuses;
    in the order of the options; made of the error of setOption. *)
Lemma New_loop_warnings (kvs : list (string * string)) (ub : Unbound) :
  (New_loop ub kvs).2
  = omap id
      (imap (fun i kv =>
               (fun e => "Could not set option: "
                         +:+ Error (setOption_error kv.1 kv.2 e))
               <$> ub_reply
                     {| handle := handle (t ub);
                        calls := (calls (t ub)
                                  ++ map (fun kv => option_call kv.1 kv.2)
                                       (take i kvs))%list |}
                     (option_call kv.1 kv.2)) kvs).
Proof.
  revert ub. induction kvs as [|[k v] kvs IH]; intros ub; [done|].
  cbn -[setOption setOption_error option_call].
  pose proof (setOption_err ub k v) as Herr.
  destruct (setOption_calls ub k v) as [_ Hc].
  destruct (setOption_frame ub k v) as (_ & Hh & _).
  destruct (setOption ub k v) as [ub' err]. cbn in Herr, Hc, Hh.
  specialize (IH ub'). destruct (New_loop ub' kvs) as [ub'' warnings].
  cbn -[setOption_error option_call] in IH. rewrite app_nil_r.
  replace {| handle := handle (t ub); calls := calls (t ub) |} with (t ub)
    by (by destruct (t ub)).
  assert (imap
            ((fun i kv =>
                (fun e => "Could not set option: "
                          +:+ Error (setOption_error kv.1 kv.2 e))
                <$> ub_reply
                      {| handle := handle (t ub);
                         calls := (calls (t ub)
                                   ++ map (fun kv => option_call kv.1 kv.2)
                                        (take i ((k, v) :: kvs)))%list |}
                      (option_call kv.1 kv.2)) ∘ S) kvs
          = imap (fun i kv =>
                    (fun e => "Could not set option: "
                              +:+ Error (setOption_error kv.1 kv.2 e))
                    <$> ub_reply
                          {| handle := handle (t ub');
                             calls := (calls (t ub')
                                       ++ map (fun kv => option_call kv.1 kv.2)
                                            (take i kvs))%list |}
                          (option_call kv.1 kv.2)) kvs) as Himap.
  { apply imap_ext. intros i kv _. cbn -[setOption_error option_call].
    by rewrite Hh, Hc, <- app_assoc. }
  rewrite Himap, <- IH, Herr.
  by destruct (ub_reply (t ub) (option_call k v)).
Qed.

End pool.

(** C9, as amended.  setOption is attempted on both contexts.  config and
    setAnchor are attempted on the UDP context and, only if that
    succeeded, on the TCP context; when the UDP context fails they
    return at once, with an error that names the file and the cause, and
    the TCP context is left as it was.  Whenever the TCP context is
    applied to and fails, the operation returns an error that names the
    option key and value (as %q prints them) or the file and ends with
    the cause; the UDP context keeps the call it was given: nothing is
    rolled back. *)
Theorem tcp_failure_is_reported `{Env} (ub : Unbound) (k v f : string) :
  (calls (u (setOption ub k v).1) = (calls (u ub) ++ [SetOption (k +:+ ":") v])%list
   ∧ calls (t (setOption ub k v).1) = (calls (t ub) ++ [SetOption (k +:+ ":") v])%list
   ∧ ∀ e, ub_reply (t ub) (SetOption (k +:+ ":") v) = Some e →
       (setOption ub k v).2 =
         Some (errorString
                 ("failed to set option " +:+ quote (k +:+ ":")
                  +:+ " with value " +:+ quote v +:+ ": " +:+ Error e)))
  ∧ (calls (u (config ub f).1) = (calls (u ub) ++ [Config f])%list
     ∧ (ub_reply (u ub) (Config f) = None →
        calls (t (config ub f).1) = (calls (t ub) ++ [Config f])%list
        ∧ ∀ e, ub_reply (t ub) (Config f) = Some e →
            (config ub f).2 =
              Some (errorString
                      ("failed to read config file (" +:+ f
                       +:+ ") TCP context: " +:+ Error e)))
     ∧ ∀ e, ub_reply (u ub) (Config f) = Some e →
         t (config ub f).1 = t ub
         ∧ (config ub f).2 =
             Some (errorString
                     ("failed to read config file (" +:+ f
                      +:+ ") UDP context: " +:+ Error e)))
  ∧ (calls (u (setAnchor ub f).1) = (calls (u ub) ++ [AddTaFile f])%list
     ∧ (ub_reply (u ub) (AddTaFile f) = None →
        calls (t (setAnchor ub f).1) = (calls (t ub) ++ [AddTaFile f])%list
        ∧ ∀ e, ub_reply (t ub) (AddTaFile f) = Some e →
            (setAnchor ub f).2 =
              Some (errorString
                      ("failed to read trust anchor file (" +:+ f
                       +:+ ") TCP context: " +:+ Error e)))
     ∧ ∀ e, ub_reply (u ub) (AddTaFile f) = Some e →
         t (setAnchor ub f).1 = t ub
         ∧ (setAnchor ub f).2 =
             Some (errorString
                     ("failed to read trust anchor file (" +:+ f
                      +:+ ") UDP context: " +:+ Error e))).
Proof.
  split; [|split].
  - destruct (setOption_calls ub k v) as [Hu Ht].
    split; [exact Hu|]. split; [exact Ht|].
    intros e He. rewrite setOption_err. unfold option_call. by rewrite He.
  - split; [|split].
    + destruct (ub_reply (u ub) (Config f)) as [e|] eqn:He.
      * by destruct (config_udp_fails ub f e He) as (_ & Hu & _).
      * by destruct (config_udp_succeeds ub f He) as (_ & Hu & _).
    + intros He. destruct (config_udp_succeeds ub f He) as (Herr & _ & Ht).
      split; [exact Ht|]. intros e Hte. by rewrite Herr, Hte.
    + intros e He. by destruct (config_udp_fails ub f e He) as (Herr & _ & Ht).
  - split; [|split].
    + destruct (ub_reply (u ub) (AddTaFile f)) as [e|] eqn:He.
      * by destruct (setAnchor_udp_fails ub f e He) as (_ & Hu & _).
      * by destruct (setAnchor_udp_succeeds ub f He) as (_ & Hu & _).
    + intros He. destruct (setAnchor_udp_succeeds ub f He) as (Herr & _ & Ht).
      split; [exact Ht|]. intros e Hte. by rewrite Herr, Hte.
    + intros e He.
      by destruct (setAnchor_udp_fails ub f e He) as (Herr & _ & Ht).
Qed.

Lemma tcp_failure_is_reported_witness :
  (@config env_tcp_refuses (pool false) "unbound.conf").2
    = Some (errorString
              "failed to read config file (unbound.conf) TCP context: syntax error")
  ∧ calls (u (@config env_tcp_refuses (pool false) "unbound.conf").1)
    = [Config "unbound.conf"]
  ∧ (@setAnchor env_udp_refuses (pool false) "root.key").2
    = Some (errorString
              "failed to read trust anchor file (root.key) UDP context: syntax error")
  ∧ (@setOption env_tcp_refuses (pool false) "msg-cache-size" "0").2
    = Some (errorString
              ("failed to set option " +:+ quote_plain "msg-cache-size:"
               +:+ " with value " +:+ quote_plain "0" +:+ ": syntax error")).
Proof.
  pose proof (@tcp_failure_is_reported env_tcp_refuses (pool false)
                "msg-cache-size" "0" "unbound.conf")
    as ((_ & _ & Hopt) & (Hcu & Hc & _) & _).
  pose proof (@tcp_failure_is_reported env_udp_refuses (pool false)
                "msg-cache-size" "0" "root.key")
    as (_ & _ & (_ & _ & Ha)).
  split; [|split; [|split]].
  - destruct (Hc eq_refl) as [_ He]. exact (He _ eq_refl).
  - exact Hcu.
  - destruct (Ha _ eq_refl) as [_ He]. exact He.
  - exact (Hopt _ eq_refl).
Defined.

(** C9, as stated, fails: when the UDP context refuses a configuration
    file, config returns before the TCP context is tried. *)
Lemma config_not_attempted_on_tcp :
  @ub_reply env_udp_refuses (u (pool false)) (Config "unbound.conf")
    = Some (errors_New "syntax error")
  ∧ calls (t (@config env_udp_refuses (pool false) "unbound.conf").1) = []
  ∧ calls (t (@config env_udp_refuses (pool false) "unbound.conf").1)
    ≠ (calls (t (pool false)) ++ [Config "unbound.conf"])%list
  ∧ calls (t (@setAnchor env_udp_refuses (pool false) "root.key").1)
    ≠ (calls (t (pool false)) ++ [AddTaFile "root.key"])%list.
Proof. repeat split; done. Qed.

(** C10.  setOption returns nil whenever the TCP context accepts the
    option, whatever the UDP context answered: the option is called on
    both contexts and the UDP result is dropped.  New ranges over the
    default options in any order, calls each on both contexts and goes
    on after a failure.  A failure is only logged: the log holds, in the
    order of the options, one warning for every option that the TCP
    context refuses in the state the earlier options left it in, the
    text "Could not set option: " followed by the error of setOption,
    and nothing else. *)
Theorem setOption_follows_tcp `{Env} :
  (∀ (ub : Unbound) (k v : string),
     ub_reply (t ub) (SetOption (k +:+ ":") v) = None →
     (setOption ub k v).2 = None
     ∧ calls (u (setOption ub k v).1)
       = (calls (u ub) ++ [SetOption (k +:+ ":") v])%list
     ∧ calls (t (setOption ub k v).1)
       = (calls (t ub) ++ [SetOption (k +:+ ":") v])%list)
  ∧ (∀ kvs : list (string * string),
       calls (u (New kvs).1) = map (fun kv => SetOption (kv.1 +:+ ":") kv.2) kvs
       ∧ calls (t (New kvs).1)
         = SetOption "tcp-upstream:" "yes"
             :: map (fun kv => SetOption (kv.1 +:+ ":") kv.2) kvs
       ∧ (length (New kvs).2 <= length kvs)%nat
       ∧ (New kvs).2
         = omap id
             (imap (fun i kv =>
                      (fun e =>
                         "Could not set option: "
                         +:+ ("failed to set option " +:+ quote (kv.1 +:+ ":")
                              +:+ " with value " +:+ quote kv.2 +:+ ": "
                              +:+ Error e))
                      <$> ub_reply
                            {| handle := 1;
                               calls :=
                                 SetOption "tcp-upstream:" "yes"
                                   :: map (fun kv =>
                                             SetOption (kv.1 +:+ ":") kv.2)
                                        (take i kvs) |}
                            (SetOption (kv.1 +:+ ":") kv.2)) kvs)).
Proof.
  split.
  - intros ub k v Ht.
    destruct (setOption_calls ub k v) as [Hu Hc].
    rewrite setOption_err. unfold option_call in *. by rewrite Ht.
  - intros kvs. unfold New; cbn -[New_loop].
    match goal with |- context [New_loop ?ub0 kvs] =>
      destruct (New_loop_calls kvs ub0) as (Hu & Ht & _ & Hw);
      pose proof (New_loop_warnings kvs ub0) as Hlog end.
    split; [done|]. split; [done|]. split; [done|].
    rewrite Hlog. done.
Qed.

Lemma setOption_follows_tcp_witness :
  @ub_reply env_udp_refuses (u (pool false))
      (SetOption "msg-cache-size:" "0")
    = Some (errors_New "syntax error")
  ∧ (@setOption env_udp_refuses (pool false) "msg-cache-size" "0").2 = None
  ∧ calls (u (@setOption env_udp_refuses (pool false) "msg-cache-size" "0").1)
    = [SetOption "msg-cache-size:" "0"]
  ∧ calls (t (@New env_all_refuse (map_to_list options)).1)
    = SetOption "tcp-upstream:" "yes"
        :: map (fun kv => SetOption (kv.1 +:+ ":") kv.2) (map_to_list options)
  ∧ (@New env_all_refuse (map_to_list options)).2
    = ["Could not set option: failed to set option "
       +:+ quote_plain "msg-cache-size:" +:+ " with value "
       +:+ quote_plain "0" +:+ ": syntax error";
       "Could not set option: failed to set option "
       +:+ quote_plain "rrset-cache-size:" +:+ " with value "
       +:+ quote_plain "0" +:+ ": syntax error"]
  ∧ (@New env_udp_refuses (map_to_list options)).2 = [].
Proof.
  destruct (@setOption_follows_tcp env_udp_refuses) as [Hset Hquiet].
  destruct (@setOption_follows_tcp env_all_refuse) as [_ Hnew].
  destruct (Hset (pool false) "msg-cache-size" "0" eq_refl) as (He & Hu & _).
  destruct (Hnew (map_to_list options)) as (_ & Ht & _ & Hlog).
  destruct (Hquiet (map_to_list options)) as (_ & _ & _ & Hnolog).
  split; [reflexivity|]. split; [exact He|]. split; [exact Hu|].
  split; [exact Ht|]. split; [exact Hlog|exact Hnolog].
Defined.

(** ** ServeDNS *)

Section serve.
Context `{Env}.

Lemma observe_after_child (server : string) (d : Z)
    (m : gmap string (list Z)) :
  <[server := (default [] (<[server := default [] (m !! server)]> m !! server)
               ++ [d])%list]> (<[server := default [] (m !! server)]> m)
  = <[server := (default [] (m !! server) ++ [d])%list]> m.
Proof. by rewrite lookup_insert_eq, insert_insert_eq. Qed.

Ltac run_ServeDNS :=
  unfold ServeDNS, bind, deref, ret, RcodeCount_Add,
    RequestDuration_WithLabelValues, RequestDuration_Observe, WriteMsg,
    measured, counted, wrote; cbn.

Lemma ServeDNS_pass (ub : Unbound) (server : string) (r : Request) :
  u_match ub r = false →
  ServeDNS ub server r = NextOrFailure "unbound" (Next ub) server r.
Proof. intros Hm. unfold ServeDNS. by rewrite Hm. Qed.

Lemma ServeDNS_engine_error ub server r w res e :
  u_match ub r = true →
  resolve ub r = (Some res, Some e) →
  ServeDNS ub server r w
  = (measured server "SERVFAIL" (Rtt res) w,
     Returns (RcodeServerFailure, Some e)).
Proof.
  intros Hm Hr. run_ServeDNS. rewrite Hm, Hr; cbn.
  by rewrite observe_after_child.
Qed.

Lemma ServeDNS_no_question ub server r w res pkt :
  u_match ub r = true →
  resolve ub r = (Some res, None) →
  AnswerPacket res = Some pkt →
  Questions pkt = None →
  ServeDNS ub server r w
  = (measured server (rcode_label (Rcode pkt)) (Rtt res) w,
     Returns (RcodeServerFailure, None)).
Proof.
  intros Hm Hr Hp Hq. run_ServeDNS. rewrite Hm, Hr; cbn. rewrite Hp; cbn.
  rewrite Hq; cbn. by rewrite observe_after_child.
Qed.

Lemma ServeDNS_bogus ub server r w res pkt :
  u_match ub r = true →
  resolve ub r = (Some res, None) →
  AnswerPacket res = Some pkt →
  Questions pkt ≠ None →
  strict ub = true →
  Bogus res = true →
  ServeDNS ub server r w
  = (measured server (rcode_label (Rcode pkt)) (Rtt res) w,
     Returns (RcodeServerFailure, Some (errors_New (WhyBogus res)))).
Proof.
  intros Hm Hr Hp Hq Hs Hb. run_ServeDNS. rewrite Hm, Hr; cbn.
  rewrite Hp; cbn. rewrite bool_decide_eq_false_2 by done; cbn.
  rewrite Hs, Hb; cbn. by rewrite observe_after_child.
Qed.

Lemma ServeDNS_answer ub server r w res pkt :
  u_match ub r = true →
  resolve ub r = (Some res, None) →
  AnswerPacket res = Some pkt →
  Questions pkt ≠ None →
  strict ub && Bogus res = false →
  ServeDNS ub server r w
  = (wrote (answer_for r pkt)
       (measured server (rcode_label (Rcode pkt)) (Rtt res) w),
     Returns (0, None)).
Proof.
  intros Hm Hr Hp Hq Hsb. run_ServeDNS. rewrite Hm, Hr; cbn.
  rewrite Hp; cbn. rewrite bool_decide_eq_false_2 by done; cbn.
  rewrite Hsb; cbn. by rewrite observe_after_child.
Qed.

Lemma ServeDNS_nil_result ub server r w err :
  u_match ub r = true →
  resolve ub r = (None, err) →
  ServeDNS ub server r w
  = (match err with
     | Some _ => counted server "SERVFAIL" w
     | None => w
     end, Panics).
Proof.
  intros Hm Hr. run_ServeDNS. rewrite Hm, Hr; cbn. by destruct err.
Qed.

Lemma ServeDNS_nil_packet ub server r w res :
  u_match ub r = true →
  resolve ub r = (Some res, None) →
  AnswerPacket res = None →
  ServeDNS ub server r w = (w, Panics).
Proof.
  intros Hm Hr Hp. run_ServeDNS. rewrite Hm, Hr; cbn. by rewrite Hp.
Qed.

Lemma resolve_other_transport ub r :
  Proto r ≠ "tcp" → Proto r ≠ "udp" → resolve ub r = (None, None).
Proof.
  intros Ht Hu. unfold resolve.
  destruct (String.eqb_spec (Proto r) "tcp"); [done|].
  by destruct (String.eqb_spec (Proto r) "udp").
Qed.

End serve.

(** ** The removal of the OPT record *)

Lemma strip_loop_spec (n i : nat) (extra : list RR) :
  (length extra <= n + i)%nat →
  no_OPT (take i extra) →
  strip_loop n i extra
  = (take i extra ++ remove_first_OPT (drop i extra))%list.
Proof.
  revert i. induction n as [|n IH]; intros i Hlen Hpre; cbn.
  - rewrite drop_ge, take_ge by lia. by rewrite app_nil_r.
  - destruct (extra !! i) as [rr|] eqn:Hi.
    + rewrite (drop_S _ _ _ Hi); cbn.
      destruct (is_OPT rr) eqn:Hopt; [done|].
      rewrite IH.
      * rewrite (take_S_r _ _ _ Hi), <- app_assoc. done.
      * lia.
      * rewrite (take_S_r _ _ _ Hi). apply Forall_app. split; [done|].
        by constructor.
    + apply lookup_ge_None in Hi.
      rewrite drop_ge, take_ge by lia. by rewrite app_nil_r.
Qed.

(** The loop of the source does what the specification says. *)
Lemma strip_OPT_spec (extra : list RR) :
  strip_OPT extra = remove_first_OPT extra.
Proof.
  unfold strip_OPT. rewrite strip_loop_spec.
  - by rewrite take_0, drop_0.
  - lia.
  - rewrite take_0. constructor.
Qed.

Lemma remove_first_OPT_none (l : list RR) :
  no_OPT l → remove_first_OPT l = l.
Proof.
  induction 1 as [|rr l Hrr _ IH]; cbn; [done|]. by rewrite Hrr, IH.
Qed.

Lemma remove_first_OPT_app (pre post : list RR) (o : RR) :
  no_OPT pre → is_OPT o = true →
  remove_first_OPT (pre ++ o :: post) = (pre ++ post)%list.
Proof.
  intros Hpre Ho. induction Hpre as [|rr l Hrr _ IH]; cbn.
  - by rewrite Ho.
  - by rewrite Hrr, IH.
Qed.

Lemma filter_OPT_none (l : list RR) :
  no_OPT l → List.filter is_OPT l = [].
Proof.
  induction 1 as [|rr l Hrr _ IH]; cbn; [done|]. by rewrite Hrr.
Qed.

Lemma set_Id_fields (m : Msg) (id : Z) :
  Id (set_Id m id) = id
  ∧ Response (set_Id m id) = Response m
  ∧ Opcode (set_Id m id) = Opcode m
  ∧ Authoritative (set_Id m id) = Authoritative m
  ∧ Truncated (set_Id m id) = Truncated m
  ∧ RecursionDesired (set_Id m id) = RecursionDesired m
  ∧ RecursionAvailable (set_Id m id) = RecursionAvailable m
  ∧ Zero (set_Id m id) = Zero m
  ∧ AuthenticatedData (set_Id m id) = AuthenticatedData m
  ∧ CheckingDisabled (set_Id m id) = CheckingDisabled m
  ∧ Rcode (set_Id m id) = Rcode m
  ∧ Compress (set_Id m id) = Compress m
  ∧ Questions (set_Id m id) = Questions m
  ∧ Answer (set_Id m id) = Answer m
  ∧ Ns (set_Id m id) = Ns m
  ∧ Extra (set_Id m id) = Extra m.
Proof. repeat split. Qed.

Section answers.
Context `{Env}.

(** C6.  When the engine returns no error and an answer with a question
    section, and the pool is not strict or the outcome is not bogus, one
    answer is written and its response code is the one of the engine's
    packet; a bogus outcome is let through when the pool is not strict.
    The call of [filter] for a client without the DO bit is taken to
    leave the response code alone, as the specification describes it. *)
Theorem answer_rcode_verbatim ub server r w res pkt :
  (∀ m, Rcode (filter m) = Rcode m) →
  u_match ub r = true →
  resolve ub r = (Some res, None) →
  AnswerPacket res = Some pkt →
  Questions pkt ≠ None →
  strict ub = false ∨ Bogus res = false →
  ∃ w' m,
    ServeDNS ub server r w = (w', Returns (0, None))
    ∧ written w' = (written w ++ [m])%list
    ∧ Rcode m = Rcode pkt.
Proof.
  intros Hf Hm Hr Hp Hq Hsb.
  assert (strict ub && Bogus res = false) as Hsb'.
  { destruct Hsb as [-> | ->]; [done|]. by rewrite andb_false_r. }
  eexists _, (answer_for r pkt). split; [|split].
  - by apply ServeDNS_answer.
  - done.
  - unfold answer_for. destruct (Do r); cbn; [done|]. by rewrite Hf.
Qed.

(** C7.  For a client without the DO bit, the loop over the additional
    section removes the first OPT record and nothing else: the records
    before it and all the records after it, further OPT records
    included, are handed to [filter] in their order, and the result is
    what is written.  If [filter] keeps OPT records, as the
    specification describes it, the OPT records of the written answer
    are those that followed the first one. *)
Theorem first_OPT_removed ub server r w res pkt pre o post :
  u_match ub r = true →
  Do r = false →
  resolve ub r = (Some res, None) →
  AnswerPacket res = Some pkt →
  Questions pkt ≠ None →
  strict ub && Bogus res = false →
  Extra pkt = (pre ++ o :: post)%list →
  no_OPT pre →
  is_OPT o = true →
  strip_OPT (Extra pkt) = (pre ++ post)%list
  ∧ ∃ w' m,
      ServeDNS ub server r w = (w', Returns (0, None))
      ∧ written w' = (written w ++ [m])%list
      ∧ m = set_Id (filter (set_Extra pkt (pre ++ post))) (ReqId r)
      ∧ ((∀ m', List.filter is_OPT (Extra (filter m'))
                = List.filter is_OPT (Extra m')) →
         List.filter is_OPT (Extra m) = List.filter is_OPT post).
Proof.
  intros Hm Hdo Hr Hp Hq Hsb Hextra Hpre Ho.
  assert (strip_OPT (Extra pkt) = (pre ++ post)%list) as Hstrip.
  { rewrite strip_OPT_spec, Hextra. by apply remove_first_OPT_app. }
  split; [done|].
  eexists _, _. split; [by apply ServeDNS_answer|].
  split; [done|].
  unfold answer_for. rewrite Hdo, Hstrip; cbn. split; [done|].
  intros Hkeep. rewrite Hkeep; cbn.
  by rewrite List.filter_app, filter_OPT_none.
Qed.

(** Without an OPT record the loop leaves the additional section as it
    is. *)
Lemma strip_OPT_none (extra : list RR) :
  no_OPT extra → strip_OPT extra = extra.
Proof. intros. rewrite strip_OPT_spec. by apply remove_first_OPT_none. Qed.

(** C8.  For a client with the DO bit, the answer written is the
    engine's packet with its identifier replaced by the one of the
    query: every other field is the packet's. *)
Theorem answer_unmodified_with_DO ub server r w res pkt :
  u_match ub r = true →
  Do r = true →
  resolve ub r = (Some res, None) →
  AnswerPacket res = Some pkt →
  Questions pkt ≠ None →
  strict ub && Bogus res = false →
  ∃ w' m,
    ServeDNS ub server r w = (w', Returns (0, None))
    ∧ written w' = (written w ++ [m])%list
    ∧ Id m = ReqId r
    ∧ Response m = Response pkt
    ∧ Opcode m = Opcode pkt
    ∧ Authoritative m = Authoritative pkt
    ∧ Truncated m = Truncated pkt
    ∧ RecursionDesired m = RecursionDesired pkt
    ∧ RecursionAvailable m = RecursionAvailable pkt
    ∧ Zero m = Zero pkt
    ∧ AuthenticatedData m = AuthenticatedData pkt
    ∧ CheckingDisabled m = CheckingDisabled pkt
    ∧ Rcode m = Rcode pkt
    ∧ Compress m = Compress pkt
    ∧ Questions m = Questions pkt
    ∧ Answer m = Answer pkt
    ∧ Ns m = Ns pkt
    ∧ Extra m = Extra pkt.
Proof.
  intros Hm Hdo Hr Hp Hq Hsb.
  eexists _, (set_Id pkt (ReqId r)). split; [|split].
  - rewrite (ServeDNS_answer ub server r w res pkt) by done.
    unfold answer_for. by rewrite Hdo.
  - done.
  - apply set_Id_fields.
Qed.

End answers.

(** ** The directives *)

Section directives.
Context `{Env}.

Lemma parse_line_anchor ub args ub' :
  parse_line ub "anchor" args = inl ub' → strict ub' = true.
Proof.
  unfold parse_line; cbn -[setAnchor].
  destruct args as [|f [|? ?]]; try done.
  destruct (setAnchor ub f) as [ub1 [e|]]; [done|].
  by intros [= <-].
Qed.

Lemma parse_line_strict ub val args ub' :
  parse_line ub val args = inl ub' → strict ub = true → strict ub' = true.
Proof.
  unfold parse_line. intros Hp Hs.
  destruct (String.eqb val "except").
  { case_bool_decide; [done|].
    destruct (normalize_all _ _); [|done]. by injection Hp as <-. }
  destruct (String.eqb val "option").
  { destruct args as [|k [|v [|? ?]]]; try done.
    destruct (setOption_frame ub k v) as (_ & _ & Hf & _).
    destruct (setOption ub k v) as [ub1 [e|]]; [done|].
    injection Hp as <-. cbn in Hf. congruence. }
  destruct (String.eqb val "config").
  { destruct args as [|f [|? ?]]; try done.
    pose proof (config_frame ub f) as Hf.
    destruct (config ub f) as [ub1 [e|]]; [done|].
    injection Hp as <-. cbn in Hf. congruence. }
  destruct (String.eqb val "anchor"); [|done].
  destruct args as [|f [|? ?]]; try done.
  destruct (setAnchor ub f) as [ub1 [e|]]; [done|].
  by injection Hp as <-.
Qed.

Lemma parse_block_strict lines ub ub' :
  parse_block ub lines = inl ub' → strict ub = true → strict ub' = true.
Proof.
  revert ub. induction lines as [|[val args] lines IH]; intros ub; cbn.
  - by intros [= <-].
  - destruct (parse_line ub val args) as [ub1|e] eqn:Hl; [|done].
    intros Hb Hs. apply (IH ub1 Hb). by apply (parse_line_strict ub val args).
Qed.

Lemma parse_block_anchor lines ub ub' args :
  parse_block ub lines = inl ub' →
  ("anchor", args) ∈ lines →
  strict ub' = true.
Proof.
  revert ub. induction lines as [|[val args'] lines IH]; intros ub; cbn.
  - intros _ Hin. by apply elem_of_nil in Hin.
  - destruct (parse_line ub val args') as [ub1|e] eqn:Hl; [|done].
    intros Hb Hin. apply elem_of_cons in Hin as [[= <- <-]|Hin].
    + apply (parse_block_strict lines ub1); [done|].
      by apply (parse_line_anchor ub args).
    + by apply (IH ub1).
Qed.

Lemma parse_loop_strict ds ub i keys ub' :
  parse_loop ub i keys ds = inl ub' → strict ub = true → strict ub' = true.
Proof.
  revert ub i. induction ds as [|d ds IH]; intros ub i; cbn.
  - by intros [= <-].
  - case_bool_decide; [done|].
    destruct (normalize_all _ _) as [hosts|e]; [|done].
    destruct (parse_block _ _) as [ub1|e] eqn:Hb; [|done].
    intros Hl Hs. apply (IH ub1 (S i) Hl).
    by apply (parse_block_strict (Block d) (set_from ub hosts)).
Qed.

Lemma parse_loop_anchor ds ub i keys ub' d args :
  parse_loop ub i keys ds = inl ub' →
  d ∈ ds →
  ("anchor", args) ∈ Block d →
  strict ub' = true.
Proof.
  revert ub i. induction ds as [|d' ds IH]; intros ub i; cbn.
  - intros _ Hin. by apply elem_of_nil in Hin.
  - case_bool_decide; [done|].
    destruct (normalize_all _ _) as [hosts|e]; [|done].
    destruct (parse_block _ _) as [ub1|e] eqn:Hb; [|done].
    intros Hl Hin Ha. apply elem_of_cons in Hin as [<-|Hin].
    + apply (parse_loop_strict ds ub1 (S i) keys); [done|].
      by apply (parse_block_anchor (Block d) (set_from ub hosts) ub1 args).
    + by apply (IH ub1 (S i)).
Qed.

(** A configuration that was accepted and had an anchor directive
    leaves the plugin strict. *)
Lemma unboundParse_anchor kvs c ub d args :
  unboundParse kvs c = inl ub →
  d ∈ Directives c →
  ("anchor", args) ∈ Block d →
  strict ub = true.
Proof.
  unfold unboundParse. destruct (New kvs) as [ub0 warnings].
  apply parse_loop_anchor.
Qed.

End directives.

(** ** The policy on failures and the metrics *)

Section policy.
Context `{Env}.

(** C1, as amended.  When the engine returned an error (with a result)
    or an answer whose question section is absent, ServeDNS returns
    SERVFAIL together with the engine's error: that error is nil when
    the engine reported none, no other error is made up. *)
Theorem failure_is_servfail ub server r w res err :
  u_match ub r = true →
  resolve ub r = (Some res, err) →
  is_Some err ∨ (∃ pkt, AnswerPacket res = Some pkt ∧ Questions pkt = None) →
  ∃ w', ServeDNS ub server r w = (w', Returns (RcodeServerFailure, err)).
Proof.
  intros Hm Hr Hfail. destruct err as [e|].
  - eexists. by apply ServeDNS_engine_error.
  - destruct Hfail as [[e [=]]|(pkt & Hp & Hq)].
    eexists. by apply (ServeDNS_no_question ub server r w res pkt).
Qed.

(** C2, as amended.  When the result is there to read, the counter of
    response codes is incremented once, under the label of SERVFAIL if
    the engine returned an error and of the response code of the
    engine's packet otherwise.  The policy comes after: for a bogus
    outcome under the strict flag SERVFAIL is returned and the label is
    still the one of the packet. *)
Theorem counter_has_engine_rcode ub server r w res err :
  u_match ub r = true →
  resolve ub r = (Some res, err) →
  (err = None → is_Some (AnswerPacket res)) →
  (∀ rc,
     rc = rcode_label (match err, AnswerPacket res with
                       | None, Some pkt => Rcode pkt
                       | _, _ => RcodeServerFailure
                       end) →
     RcodeCount (ServeDNS ub server r w).1
     = <[(server, rc) := S (default 0%nat (RcodeCount w !! (server, rc)))]>
         (RcodeCount w))
  ∧ (∀ pkt,
       err = None → AnswerPacket res = Some pkt → Questions pkt ≠ None →
       strict ub = true → Bogus res = true →
       (ServeDNS ub server r w).2
       = Returns (RcodeServerFailure, Some (errors_New (WhyBogus res)))
       ∧ RcodeCount (ServeDNS ub server r w).1
         = <[(server, rcode_label (Rcode pkt)) :=
               S (default 0%nat
                    (RcodeCount w !! (server, rcode_label (Rcode pkt))))]>
             (RcodeCount w)).
Proof.
  intros Hm Hr Hpkt. split.
  - intros rc ->. destruct err as [e|].
    + by rewrite (ServeDNS_engine_error ub server r w res e).
    + destruct (Hpkt eq_refl) as [pkt Hp]. rewrite Hp.
      destruct (Questions pkt) as [q|] eqn:Hq.
      * destruct (strict ub && Bogus res) eqn:Hsb.
        -- apply andb_true_iff in Hsb as [Hs Hb].
           rewrite (ServeDNS_bogus ub server r w res pkt); try done.
           by rewrite Hq.
        -- rewrite (ServeDNS_answer ub server r w res pkt); try done.
           by rewrite Hq.
      * by rewrite (ServeDNS_no_question ub server r w res pkt).
  - intros pkt -> Hp Hq Hs Hb.
    by rewrite (ServeDNS_bogus ub server r w res pkt).
Qed.

(** C3, as amended.  A configuration that was accepted with an anchor
    directive leaves the plugin strict, and from then on every outcome
    flagged bogus whose result can be read yields SERVFAIL, whatever
    response code the packet carries.  The error is the one made from
    the bogus reason when the engine reported no error and the answer
    has a question section; otherwise it is the engine's error, which
    the check that comes first returns. *)
Theorem strict_bogus_is_servfail kvs c ub d args next server r w res err :
  unboundParse kvs c = inl ub →
  d ∈ Directives c →
  ("anchor", args) ∈ Block d →
  u_match (AddPlugin ub next) r = true →
  resolve (AddPlugin ub next) r = (Some res, err) →
  Bogus res = true →
  (err = None → is_Some (AnswerPacket res)) →
  strict (AddPlugin ub next) = true
  ∧ ∃ w' e,
      ServeDNS (AddPlugin ub next) server r w
      = (w', Returns (RcodeServerFailure, e))
      ∧ (∀ pkt, err = None → AnswerPacket res = Some pkt →
                Questions pkt ≠ None →
                e = Some (errors_New (WhyBogus res))
                ∧ Error (errors_New (WhyBogus res)) = WhyBogus res)
      ∧ (is_Some err
         ∨ (∃ pkt, AnswerPacket res = Some pkt ∧ Questions pkt = None) →
         e = err).
Proof.
  intros Hparse Hd Ha Hm Hr Hb Hpkt.
  assert (strict (AddPlugin ub next) = true) as Hs
    by (cbn; by apply (unboundParse_anchor kvs c ub d args)).
  split; [done|]. destruct err as [e|].
  - exists (measured server "SERVFAIL" (Rtt res) w), (Some e).
    split; [by apply ServeDNS_engine_error|]. split; [done|done].
  - destruct (Hpkt eq_refl) as [pkt Hp].
    destruct (Questions pkt) as [q|] eqn:Hq.
    + eexists _, _. split.
      * apply (ServeDNS_bogus _ server r w res pkt); try done. by rewrite Hq.
      * split; [done|]. intros [[e [=]]|(pkt' & Hp' & Hq')].
        rewrite Hp in Hp'. injection Hp' as <-. by rewrite Hq in Hq'.
    + eexists _, _. split.
      * by apply (ServeDNS_no_question _ server r w res pkt).
      * split; [|done]. intros pkt' _ Hp' Hq'.
        rewrite Hp in Hp'. injection Hp' as <-. done.
Qed.

(** C4: what the code does with a nil result.  After [Resolve] returned
    an error and no result, the round-trip time is read from the nil
    result; for a transport other than the two of the switch, nothing
    is resolved and the packet is read from the nil result.  ServeDNS
    panics in both cases. *)
Theorem nil_result_is_dereferenced ub server r w :
  u_match ub r = true →
  (∀ err, resolve ub r = (None, err) → (ServeDNS ub server r w).2 = Panics)
  ∧ (Proto r ≠ "tcp" → Proto r ≠ "udp" →
     ServeDNS ub server r w = (w, Panics)).
Proof.
  intros Hm. split.
  - intros err Hr. by rewrite (ServeDNS_nil_result ub server r w err).
  - intros Ht Hu.
    by rewrite (ServeDNS_nil_result ub server r w None)
      by (done || by apply resolve_other_transport).
Qed.

(** C5: what the code does when [Resolve] returned an error and no
    result.  The counter is incremented under SERVFAIL, the histogram of
    the server is made, and ServeDNS panics before anything is
    observed. *)
Theorem engine_error_is_not_observed ub server r w e :
  u_match ub r = true →
  resolve ub r = (None, Some e) →
  ∃ w',
    ServeDNS ub server r w = (w', Panics)
    ∧ RcodeCount w' !! (server, "SERVFAIL")
      = Some (S (default 0%nat (RcodeCount w !! (server, "SERVFAIL"))))
    ∧ default [] (RequestDuration w' !! server)
      = default [] (RequestDuration w !! server).
Proof.
  intros Hm Hr. eexists. split.
  - by apply (ServeDNS_nil_result ub server r w (Some e)).
  - cbn. by rewrite !lookup_insert_eq.
Qed.

(** On every other path through the resolver the two metrics are
    touched once each, and a query out of scope touches neither: it is
    handed to the next handler with the world as it was received. *)
Lemma metrics_once ub server r w res err :
  u_match ub r = true →
  resolve ub r = (Some res, err) →
  (err = None → is_Some (AnswerPacket res)) →
  ∃ rc w',
    (ServeDNS ub server r w).1 = w'
    ∧ RcodeCount w'
      = <[(server, rc) := S (default 0%nat (RcodeCount w !! (server, rc)))]>
          (RcodeCount w)
    ∧ RequestDuration w'
      = <[server := (default [] (RequestDuration w !! server)
                     ++ [Rtt res])%list]> (RequestDuration w).
Proof.
  intros Hm Hr Hpkt. destruct err as [e|].
  - eexists _, _. by rewrite (ServeDNS_engine_error ub server r w res e).
  - destruct (Hpkt eq_refl) as [pkt Hp].
    exists (rcode_label (Rcode pkt)).
    destruct (Questions pkt) as [q|] eqn:Hq.
    + destruct (strict ub && Bogus res) eqn:Hsb.
      * apply andb_true_iff in Hsb as [Hs Hb]. eexists.
        rewrite (ServeDNS_bogus ub server r w res pkt); try done.
        by rewrite Hq.
      * eexists.
        rewrite (ServeDNS_answer ub server r w res pkt); try done.
        by rewrite Hq.
    + eexists. by rewrite (ServeDNS_no_question ub server r w res pkt).
Qed.

Lemma pass_through_no_metrics ub server r w :
  u_match ub r = false →
  ServeDNS ub server r w = NextOrFailure "unbound" (Next ub) server r w
  ∧ (Next ub = None → (ServeDNS ub server r w).1 = w).
Proof.
  intros Hm. rewrite ServeDNS_pass by done. split; [done|].
  by intros ->.
Qed.

End policy.

(** ** The theorems at work *)

Lemma failure_is_servfail_witness :
  (∃ w', @ServeDNS (env_answering answer_error) (pool false) server0
           (query "udp" true) world0
         = (w', Returns (RcodeServerFailure, Some engine_failure)))
  ∧ (∃ w', @ServeDNS (env_answering answer_no_question) (pool false) server0
             (query "tcp" true) world0
           = (w', Returns (RcodeServerFailure, None))).
Proof.
  split.
  - apply (@failure_is_servfail (env_answering answer_error) (pool false)
             server0 (query "udp" true) world0 (result_of None false "")).
    + reflexivity.
    + reflexivity.
    + left. by eexists.
  - apply (@failure_is_servfail (env_answering answer_no_question)
             (pool false) server0 (query "tcp" true) world0
             (result_of (Some (reply_msg 0 None [])) false "")).
    + reflexivity.
    + reflexivity.
    + right. by eexists.
Defined.

(** C1, as stated, fails: an answer without question section and without
    engine error gives SERVFAIL with the nil error. *)
Lemma no_question_returns_nil_error :
  (@resolve (env_answering answer_no_question) (pool false)
     (query "udp" true)).2 = None
  ∧ (@ServeDNS (env_answering answer_no_question) (pool false) server0
       (query "udp" true) world0).2
    = Returns (RcodeServerFailure, None)
  ∧ ¬ (∃ e : error,
         (@ServeDNS (env_answering answer_no_question) (pool false) server0
            (query "udp" true) world0).2
         = Returns (RcodeServerFailure, Some e)).
Proof.
  split; [reflexivity|]. split; [reflexivity|].
  intros [e He]. vm_compute in He. discriminate He.
Qed.

Lemma counter_has_engine_rcode_witness :
  (@ServeDNS (env_answering answer_bogus) (pool true) server0
     (query "udp" true) world0).2
  = Returns (RcodeServerFailure, Some (errors_New "signature expired"))
  ∧ RcodeCount
      (@ServeDNS (env_answering answer_bogus) (pool true) server0
         (query "udp" true) world0).1
    = <[(server0, "NOERROR") := 1%nat]> ∅.
Proof.
  destruct (@counter_has_engine_rcode (env_answering answer_bogus)
              (pool true) server0 (query "udp" true) world0
              (result_of (Some (reply_msg 0 (Some question_www) [opt_rr]))
                 true "signature expired") None)
    as [Hcount Hbogus].
  - reflexivity.
  - reflexivity.
  - intros _. by eexists.
  - assert (Questions (reply_msg 0 (Some question_www) [opt_rr]) ≠ None)
      as Hq by done.
    destruct (Hbogus (reply_msg 0 (Some question_www) [opt_rr])
                eq_refl eq_refl Hq eq_refl eq_refl) as [Hret _].
    split; [exact Hret|]. exact (Hcount "NOERROR" eq_refl).
Defined.

(** C2, as stated, fails: for a bogus outcome under the strict flag the
    code returned is SERVFAIL and the counter incremented is the one of
    the packet's NOERROR. *)
Lemma bogus_counted_under_packet_rcode :
  strict (pool true) = true
  ∧ (@ServeDNS (env_answering answer_bogus) (pool true) server0
       (query "udp" true) world0).2
    = Returns (RcodeServerFailure, Some (errors_New "signature expired"))
  ∧ RcodeCount
      (@ServeDNS (env_answering answer_bogus) (pool true) server0
         (query "udp" true) world0).1 !! (server0, "SERVFAIL") = None
  ∧ RcodeCount
      (@ServeDNS (env_answering answer_bogus) (pool true) server0
         (query "udp" true) world0).1 !! (server0, "NOERROR") = Some 1%nat.
Proof. repeat split; vm_compute; reflexivity. Qed.

Lemma strict_bogus_is_servfail_witness :
  ∃ ub,
    @unboundParse (env_answering answer_bogus) (map_to_list options) c_anchor
    = inl ub
    ∧ strict ub = true
    ∧ ∃ w',
        @ServeDNS (env_answering answer_bogus) (AddPlugin ub None) server0
          (query "tcp" true) world0
        = (w', Returns (RcodeServerFailure,
                        Some (errors_New "signature expired"))).
Proof.
  destruct (@unboundParse (env_answering answer_bogus)
              (map_to_list options) c_anchor) as [ub|e] eqn:Hparse;
    [|vm_compute in Hparse; discriminate Hparse].
  exists ub. split; [reflexivity|].
  destruct (@strict_bogus_is_servfail (env_answering answer_bogus)
              (map_to_list options) c_anchor ub
              {| Args := ["example.org."];
                 Block := [("except", ["internal.example.org."]);
                           ("anchor", ["root.key"])] |}
              ["root.key"] None server0 (query "tcp" true) world0
              (result_of (Some (reply_msg 0 (Some question_www) [opt_rr]))
                 true "signature expired") None)
    as (Hs & w' & e & Hserve & Hwhy & _).
  - exact Hparse.
  - apply list_elem_of_here.
  - apply list_elem_of_further, list_elem_of_here.
  - vm_compute in Hparse. injection Hparse as <-. reflexivity.
  - reflexivity.
  - reflexivity.
  - intros _. by eexists.
  - split; [exact Hs|]. exists w'.
    assert (Questions (reply_msg 0 (Some question_www) [opt_rr]) ≠ None)
      as Hq by done.
    destruct (Hwhy (reply_msg 0 (Some question_www) [opt_rr])
                eq_refl eq_refl Hq) as [He _].
    rewrite He in Hserve. exact Hserve.
Defined.

(** C3, as stated, fails: under the strict flag a bogus outcome whose
    answer has no question section is turned down by the check that
    comes first, with the engine's nil error and not with the bogus
    reason. *)
Lemma bogus_without_question_has_no_reason :
  ∃ ub,
    @unboundParse (env_answering answer_bogus_no_question)
      (map_to_list options) c_anchor = inl ub
    ∧ strict ub = true
    ∧ (@ServeDNS (env_answering answer_bogus_no_question)
         (AddPlugin ub None) server0 (query "udp" true) world0).2
      = Returns (RcodeServerFailure, None)
    ∧ (@ServeDNS (env_answering answer_bogus_no_question)
         (AddPlugin ub None) server0 (query "udp" true) world0).2
      ≠ Returns (RcodeServerFailure, Some (errors_New "signature expired")).
Proof.
  eexists. split; [vm_compute; reflexivity|].
  split; [reflexivity|]. split; [vm_compute; reflexivity|].
  vm_compute. discriminate.
Qed.

Lemma filter_spec_Rcode (m : Msg) : Rcode (filter_spec m) = Rcode m.
Proof. reflexivity. Qed.

Lemma filter_spec_keeps_OPT (m : Msg) :
  List.filter is_OPT (Extra (filter_spec m)) = List.filter is_OPT (Extra m).
Proof.
  cbn. induction (Extra m) as [|rr l IH]; [done|].
  destruct rr as [h o|h d]; cbn.
  - by rewrite IH.
  - destruct (negb _); cbn; by rewrite IH.
Qed.

Lemma nil_result_is_dereferenced_witness :
  (@ServeDNS (env_answering answer_error_no_result) (pool false) server0
     (query "udp" true) world0).2 = Panics
  ∧ @ServeDNS (env_answering answer_bogus) (pool false) server0
      (query "quic" true) world0 = (world0, Panics).
Proof.
  destruct (@nil_result_is_dereferenced
              (env_answering answer_error_no_result) (pool false) server0
              (query "udp" true) world0 eq_refl) as [Hnil _].
  destruct (@nil_result_is_dereferenced
              (env_answering answer_bogus) (pool false) server0
              (query "quic" true) world0 eq_refl) as [_ Hother].
  split.
  - exact (Hnil (Some engine_failure) eq_refl).
  - apply Hother; cbn; discriminate.
Defined.

Lemma engine_error_is_not_observed_witness :
  ∃ w',
    @ServeDNS (env_answering answer_error_no_result) (pool false) server0
      (query "udp" true) world0 = (w', Panics)
    ∧ RcodeCount w' !! (server0, "SERVFAIL") = Some 1%nat
    ∧ default [] (RequestDuration w' !! server0) = [].
Proof.
  exact (@engine_error_is_not_observed
           (env_answering answer_error_no_result) (pool false) server0
           (query "udp" true) world0 engine_failure eq_refl eq_refl).
Defined.

Lemma answer_rcode_verbatim_witness :
  Bogus (result_of (Some (reply_msg 0 (Some question_www) [opt_rr])) true
           "signature expired") = true
  ∧ ∃ w' m,
      @ServeDNS (env_answering answer_bogus) (pool false) server0
        (query "udp" false) world0 = (w', Returns (0, None))
      ∧ written w' = [m]
      ∧ Rcode m = 0.
Proof.
  split; [reflexivity|].
  assert (Questions (reply_msg 0 (Some question_www) [opt_rr]) ≠ None)
    as Hq by done.
  exact (@answer_rcode_verbatim (env_answering answer_bogus) (pool false)
           server0 (query "udp" false) world0
           (result_of (Some (reply_msg 0 (Some question_www) [opt_rr])) true
              "signature expired")
           (reply_msg 0 (Some question_www) [opt_rr])
           filter_spec_Rcode eq_refl eq_refl eq_refl Hq
           (or_introl eq_refl)).
Defined.

Lemma first_OPT_removed_witness :
  strip_OPT extra_two_OPT = [a_rr; rrsig_rr; opt_rr']
  ∧ ∃ w' m,
      @ServeDNS (env_answering answer_two_OPT) (pool false) server0
        (query "udp" false) world0 = (w', Returns (0, None))
      ∧ written w' = [m]
      ∧ Extra m = [a_rr; opt_rr']
      ∧ List.filter is_OPT (Extra m) = [opt_rr'].
Proof.
  assert (Questions (reply_msg 3 (Some question_www) extra_two_OPT) ≠ None)
    as Hq by done.
  assert (no_OPT [a_rr]) as Hpre by (by repeat constructor).
  destruct (@first_OPT_removed (env_answering answer_two_OPT) (pool false)
              server0 (query "udp" false) world0
              (result_of (Some (reply_msg 3 (Some question_www) extra_two_OPT))
                 false "")
              (reply_msg 3 (Some question_www) extra_two_OPT)
              [a_rr] opt_rr [rrsig_rr; opt_rr']
              eq_refl eq_refl eq_refl eq_refl Hq eq_refl eq_refl Hpre eq_refl)
    as (Hstrip & w' & m & Hserve & Hw & Hm & Hopt).
  split; [exact Hstrip|]. exists w', m.
  split; [exact Hserve|]. split; [exact Hw|].
  split; [by rewrite Hm|]. exact (Hopt filter_spec_keeps_OPT).
Defined.

Lemma answer_unmodified_with_DO_witness :
  ∃ w' m,
    @ServeDNS (env_answering answer_two_OPT) (pool true) server0
      (query "tcp" true) world0 = (w', Returns (0, None))
    ∧ written w' = [m]
    ∧ Id m = 7
    ∧ Rcode m = 3
    ∧ Extra m = extra_two_OPT.
Proof.
  assert (Questions (reply_msg 3 (Some question_www) extra_two_OPT) ≠ None)
    as Hq by done.
  destruct (@answer_unmodified_with_DO (env_answering answer_two_OPT)
              (pool true) server0 (query "tcp" true) world0
              (result_of (Some (reply_msg 3 (Some question_www) extra_two_OPT))
                 false "")
              (reply_msg 3 (Some question_www) extra_two_OPT)
              eq_refl eq_refl eq_refl eq_refl Hq eq_refl)
    as (w' & m & Hserve & Hw & Hid & Hfields).
  exists w', m. split; [exact Hserve|]. split; [exact Hw|].
  split; [exact Hid|]. split; [apply Hfields|apply Hfields].
Defined.

(** * Further properties of the code *)

(** ** normalizeHost and the zones *)

Section zones.
Context `{Env}.

Lemma normalizeHost_inl (valueName hostStr h : string) :
  normalizeHost valueName hostStr = inl h ↔ normalizes_to hostStr h.
Proof.
  unfold normalizeHost, normalizes_to.
  destruct (NormalizeExact hostStr) as [|h' [|h'' l]].
  { split; [done|]. by intros [[=] _]. }
  2: { split; [done|]. by intros [[=] _]. }
  case_bool_decide as Hlen.
  - split.
    + intros [= ->]. split; [done|]. intros ->. cbn in Hlen. lia.
    + by intros [[= ->] _].
  - split; [done|]. intros [[= ->] Hne].
    destruct h; [done|]. cbn in Hlen. lia.
Qed.

Lemma normalizeHost_inr (valueName hostStr : string) (e : error) :
  normalizeHost valueName hostStr = inr e → e = invalid_zone valueName hostStr.
Proof.
  unfold normalizeHost, invalid_zone.
  destruct (NormalizeExact hostStr) as [|h' [|h'' l]]; try by intros [= <-].
  case_bool_decide; [done|]. by intros [= <-].
Qed.

(** X1.  The loop over a list of zones succeeds exactly when every zone
    normalizes, and then gives the normalized names in the order of the
    zones. *)
Theorem normalize_all_spec (valueName : string) (l hosts : list string) :
  normalize_all valueName l = inl hosts ↔ Forall2 normalizes_to l hosts.
Proof.
  revert hosts. induction l as [|s l IH]; intros hosts; cbn.
  - split.
    + intros [= <-]. constructor.
    + intros Hall. by apply Forall2_nil_inv_l in Hall as ->.
  - destruct (normalizeHost valueName s) as [h|e] eqn:Hs.
    + apply normalizeHost_inl in Hs.
      destruct (normalize_all valueName l) as [hs|e] eqn:Hl.
      * split.
        -- intros [= <-]. constructor; [done|]. by apply IH.
        -- intros Hall. apply Forall2_cons_inv_l in Hall
             as (h' & hs' & [Hn _] & Hrest & ->).
           destruct Hs as [Hs _]. rewrite Hs in Hn. injection Hn as <-.
           apply IH in Hrest. by injection Hrest as <-.
      * split; [done|]. intros Hall.
        apply Forall2_cons_inv_l in Hall as (h' & hs' & _ & Hrest & ->).
        by apply IH in Hrest.
    + split; [done|]. intros Hall.
      apply Forall2_cons_inv_l in Hall as (h' & hs' & Hn & _ & ->).
      apply (normalizeHost_inl valueName) in Hn. congruence.
Qed.

(** X2.  The loop stops at the first zone that does not normalize, with the
    error that names the directive value and that zone; the zones after
    it are not looked at. *)
Theorem normalize_all_first_failure (valueName : string)
    (pre post hosts : list string) (s : string) :
  Forall2 normalizes_to pre hosts →
  (∀ h, ¬ normalizes_to s h) →
  normalize_all valueName (pre ++ s :: post)
  = inr (errors_New
           ("Invalid '" +:+ valueName
            +:+ "' value should be normalizable as a non-empty domain name: "
            +:+ s)).
Proof.
  intros Hpre Hs. induction Hpre as [|p h pre hosts Hp _ IH]; cbn.
  - destruct (normalizeHost valueName s) as [h|e] eqn:Hn.
    + apply normalizeHost_inl in Hn. by destruct (Hs h).
    + by rewrite (normalizeHost_inr _ _ _ Hn).
  - apply (normalizeHost_inl valueName) in Hp. rewrite Hp.
    by rewrite IH.
Qed.

Lemma normalizes_nonempty (l hosts : list string) :
  Forall2 normalizes_to l hosts → Forall (fun h => h ≠ "") hosts.
Proof.
  induction 1 as [|s h l hosts [_ Hne] _ IH]; constructor; done.
Qed.

End zones.

(** ** unboundParse *)

Section parse.
Context `{Env}.

Lemma setOption_ok ub k v ub' :
  setOption ub k v = (ub', None) →
  calls (u ub') = (calls (u ub) ++ [SetOption (k +:+ ":") v])%list
  ∧ calls (t ub') = (calls (t ub) ++ [SetOption (k +:+ ":") v])%list
  ∧ handle (u ub') = handle (u ub) ∧ handle (t ub') = handle (t ub)
  ∧ strict ub' = strict ub ∧ from ub' = from ub ∧ except ub' = except ub.
Proof.
  intros Hset.
  destruct (setOption_calls ub k v) as [Hu Ht].
  destruct (setOption_frame ub k v) as (Hhu & Hht & Hs & Hf & He).
  rewrite Hset in *. done.
Qed.

Lemma config_ok ub f ub' :
  config ub f = (ub', None) →
  calls (u ub') = (calls (u ub) ++ [Config f])%list
  ∧ calls (t ub') = (calls (t ub) ++ [Config f])%list
  ∧ handle (u ub') = handle (u ub) ∧ handle (t ub') = handle (t ub)
  ∧ strict ub' = strict ub ∧ from ub' = from ub ∧ except ub' = except ub.
Proof.
  unfold config, ctx_call; cbn.
  destruct (ub_reply (u ub) _); cbn; [done|].
  destruct (ub_reply (t ub) _); cbn; [done|]. by intros [= <-].
Qed.

Lemma setAnchor_ok ub f ub' :
  setAnchor ub f = (ub', None) →
  calls (u ub') = (calls (u ub) ++ [AddTaFile f])%list
  ∧ calls (t ub') = (calls (t ub) ++ [AddTaFile f])%list
  ∧ handle (u ub') = handle (u ub) ∧ handle (t ub') = handle (t ub)
  ∧ strict ub' = strict ub ∧ from ub' = from ub ∧ except ub' = except ub.
Proof.
  unfold setAnchor, ctx_call; cbn.
  destruct (ub_reply (u ub) _); cbn; [done|].
  destruct (ub_reply (t ub) _); cbn; [done|]. by intros [= <-].
Qed.

(** What a line that was accepted can have been. *)
Lemma parse_line_inv ub val args ub' :
  parse_line ub val args = inl ub' →
  (val = "except" ∧ args ≠ []
   ∧ ∃ hosts, normalize_all "except" args = inl hosts
              ∧ ub' = set_except ub hosts)
  ∨ (val = "option" ∧ ∃ k v, args = [k; v] ∧ setOption ub k v = (ub', None))
  ∨ (val = "config" ∧ ∃ f, args = [f] ∧ config ub f = (ub', None))
  ∨ (val = "anchor"
     ∧ ∃ f ub1, args = [f] ∧ setAnchor ub f = (ub1, None)
                ∧ ub' = set_strict ub1 true).
Proof.
  unfold parse_line.
  destruct (String.eqb_spec val "except") as [->|_].
  { case_bool_decide as Hlen; [done|].
    destruct (normalize_all "except" args) as [hosts|e] eqn:Hn; [|done].
    intros [= <-]. left. split; [done|]. split; [by intros ->|]. eauto. }
  destruct (String.eqb_spec val "option") as [->|_].
  { destruct args as [|k [|v [|? ?]]]; try done.
    destruct (setOption ub k v) as [ub1 [e|]] eqn:Hset; [done|].
    intros [= <-]. right; left. eauto. }
  destruct (String.eqb_spec val "config") as [->|_].
  { destruct args as [|f [|? ?]]; try done.
    destruct (config ub f) as [ub1 [e|]] eqn:Hc; [done|].
    intros [= <-]. right; right; left. eauto. }
  destruct (String.eqb_spec val "anchor") as [->|_]; [|done].
  destruct args as [|f [|? ?]]; try done.
  destruct (setAnchor ub f) as [ub1 [e|]] eqn:Ha; [done|].
  intros [= <-]. right; right; right. eauto 10.
Qed.

(** What an accepted line changes. *)
Lemma parse_line_step ub val args ub' :
  parse_line ub val args = inl ub' →
  calls (u ub') = (calls (u ub) ++ line_call (val, args))%list
  ∧ calls (t ub') = (calls (t ub) ++ line_call (val, args))%list
  ∧ handle (u ub') = handle (u ub) ∧ handle (t ub') = handle (t ub)
  ∧ strict ub' = strict ub || is_anchor_line (val, args)
  ∧ from ub' = from ub
  ∧ (val ≠ "except" → except ub' = except ub)
  ∧ (val = "except" → normalize_all "except" args = inl (except ub')).
Proof.
  intros Hl. apply parse_line_inv in Hl
    as [(-> & _ & hosts & Hn & ->)
       |[(-> & k & v & -> & Hset)
        |[(-> & f & -> & Hc)|(-> & f & ub1 & -> & Ha & ->)]]];
    unfold line_call, is_anchor_line; cbn -[setOption config setAnchor].
  - rewrite !app_nil_r, orb_false_r. repeat split; done.
  - apply setOption_ok in Hset as (Hu & Ht & Hhu & Hht & Hs & Hf & He).
    rewrite orb_false_r. repeat split; done.
  - apply config_ok in Hc as (Hu & Ht & Hhu & Hht & Hs & Hf & He).
    rewrite orb_false_r. repeat split; done.
  - apply setAnchor_ok in Ha as (Hu & Ht & Hhu & Hht & Hs & Hf & He).
    rewrite orb_true_r. repeat split; done.
Qed.

Lemma parse_block_app_inv l1 l2 ub ub' :
  parse_block ub (l1 ++ l2) = inl ub' →
  ∃ ub1, parse_block ub l1 = inl ub1 ∧ parse_block ub1 l2 = inl ub'.
Proof.
  revert ub. induction l1 as [|[val args] l1 IH]; intros ub; cbn.
  - eauto.
  - destruct (parse_line ub val args) as [ub1|e]; [|done]. apply IH.
Qed.

Lemma parse_block_step lines ub ub' :
  parse_block ub lines = inl ub' →
  calls (u ub') = (calls (u ub) ++ flat_map line_call lines)%list
  ∧ calls (t ub') = (calls (t ub) ++ flat_map line_call lines)%list
  ∧ handle (u ub') = handle (u ub) ∧ handle (t ub') = handle (t ub)
  ∧ strict ub' = strict ub || existsb is_anchor_line lines
  ∧ from ub' = from ub
  ∧ (Forall (fun h => h ≠ "") (except ub) →
     Forall (fun h => h ≠ "") (except ub'))
  ∧ (Forall (fun line => line.1 ≠ "except") lines → except ub' = except ub).
Proof.
  revert ub. induction lines as [|[val args] lines IH]; intros ub; cbn.
  - intros [= <-]. rewrite !app_nil_r, orb_false_r. repeat split; done.
  - destruct (parse_line ub val args) as [ub1|e] eqn:Hl; [|done].
    intros Hb.
    apply parse_line_step in Hl
      as (Hu & Ht & Hhu & Hht & Hs & Hf & Hother & Hexc).
    apply IH in Hb as (Hu' & Ht' & Hhu' & Hht' & Hs' & Hf' & Hne & Hkeep).
    rewrite Hu', Ht', Hu, Ht, Hs', Hs, <- !app_assoc, orb_assoc.
    repeat split; try congruence.
    + intros Hall. apply Hne.
      destruct (decide (val = "except")) as [->|Hval].
      * specialize (Hexc eq_refl). apply normalize_all_spec in Hexc.
        by apply normalizes_nonempty in Hexc.
      * by rewrite Hother.
    + intros Hall. apply Forall_cons in Hall as [Hval Hall]. cbn in Hval.
      rewrite Hkeep by done. by apply Hother.
Qed.

(** An accepted configuration has no directive or one. *)
Lemma parse_loop_inv ds ub i keys ub' :
  parse_loop ub i keys ds = inl ub' →
  (ds = [] ∧ ub' = ub)
  ∨ (i = 0%nat
     ∧ ∃ d hosts,
         ds = [d]
         ∧ normalize_all "from" (zones_of keys d) = inl hosts
         ∧ parse_block (set_from ub hosts) (Block d) = inl ub').
Proof.
  destruct ds as [|d ds]; cbn.
  - intros [= <-]. by left.
  - case_bool_decide as Hi; [done|].
    fold (zones_of keys d).
    destruct (normalize_all "from" (zones_of keys d)) as [hosts|e] eqn:Hn;
      [|done].
    destruct (parse_block (set_from ub hosts) (Block d)) as [ub1|e] eqn:Hb;
      [|done].
    destruct ds as [|d' ds]; cbn.
    + intros [= <-]. right. split; [lia|]. eauto.
    + by rewrite bool_decide_eq_true_2 by lia.
Qed.

Lemma New_loop_frame kvs ub :
  handle (u (New_loop ub kvs).1) = handle (u ub)
  ∧ handle (t (New_loop ub kvs).1) = handle (t ub)
  ∧ from (New_loop ub kvs).1 = from ub
  ∧ except (New_loop ub kvs).1 = except ub.
Proof.
  revert ub. induction kvs as [|[k v] kvs IH]; intros ub; cbn -[setOption].
  - done.
  - destruct (setOption_frame ub k v) as (Hhu & Hht & _ & Hf & He).
    destruct (setOption ub k v) as [ub' err].
    specialize (IH ub'). destruct (New_loop ub' kvs) as [ub'' warnings].
    cbn in *. destruct IH as (? & ? & ? & ?).
    destruct err; cbn; repeat split; congruence.
Qed.

Lemma New_pool kvs :
  calls (u (New kvs).1) = map (fun kv => SetOption (kv.1 +:+ ":") kv.2) kvs
  ∧ calls (t (New kvs).1) = tcp_upstream :: calls (u (New kvs).1)
  ∧ handle (u (New kvs).1) = 0%nat ∧ handle (t (New kvs).1) = 1%nat
  ∧ strict (New kvs).1 = false
  ∧ from (New kvs).1 = [] ∧ except (New kvs).1 = [].
Proof.
  unfold New; cbn -[New_loop].
  match goal with |- context [New_loop ?ub0 kvs] =>
    destruct (New_loop_calls kvs ub0) as (Hu & Ht & Hs & _);
    destruct (New_loop_frame kvs ub0) as (Hhu & Hht & Hf & He) end.
  rewrite Hu, Ht. done.
Qed.

Lemma unboundParse_inv kvs c ub :
  unboundParse kvs c = inl ub →
  (Directives c = [] ∧ ub = (New kvs).1)
  ∨ (∃ d hosts,
       Directives c = [d]
       ∧ normalize_all "from" (zones_of (ServerBlockKeys c) d) = inl hosts
       ∧ parse_block (set_from (New kvs).1 hosts) (Block d) = inl ub).
Proof.
  unfold unboundParse. destruct (New kvs) as [ub0 warnings]; cbn.
  intros Hl. apply parse_loop_inv in Hl as [[-> ->]|(_ & d & hosts & Hl)].
  - by left.
  - right. eauto.
Qed.

End parse.

Section parse_properties.
Context `{Env}.

(** X3.  A second occurrence of the directive is never accepted: the
    configuration fails whatever the occurrences hold, and with
    [plugin.ErrOnce] when the first occurrence is one that would have
    been accepted alone. *)
Theorem unboundParse_once kvs keys d d' ds :
  (∃ e, unboundParse kvs {| Directives := d :: d' :: ds;
                            ServerBlockKeys := keys |} = inr e)
  ∧ (∀ ub,
       unboundParse kvs {| Directives := [d]; ServerBlockKeys := keys |}
       = inl ub →
       unboundParse kvs {| Directives := d :: d' :: ds;
                           ServerBlockKeys := keys |} = inr ErrOnce).
Proof.
  unfold unboundParse. destruct (New kvs) as [ub0 warnings]; cbn.
  destruct (normalize_all "from" _) as [hosts|e]; [|split; [eauto|done]].
  destruct (parse_block _ (Block d)) as [ub1|e]; [|split; [eauto|done]].
  split; eauto.
Qed.

(** X4.  An accepted configuration leaves the plugin strict exactly when its
    block has an anchor line: no other directive sets the flag and
    nothing clears it. *)
Theorem unboundParse_strict_iff kvs c ub :
  unboundParse kvs c = inl ub →
  strict ub = true
  ↔ ∃ d args, d ∈ Directives c ∧ ("anchor", args) ∈ Block d.
Proof.
  intros Hp. destruct (New_pool kvs) as (_ & _ & _ & _ & Hs0 & _).
  apply unboundParse_inv in Hp as [[Hd ->]|(d & hosts & Hd & _ & Hb)].
  - rewrite Hs0, Hd. split; [done|].
    intros (d & args & Hin & _). by apply elem_of_nil in Hin.
  - apply parse_block_step in Hb as (_ & _ & _ & _ & Hs & _).
    cbn -[New] in Hs. rewrite Hs0 in Hs; cbn in Hs. rewrite Hs, Hd.
    rewrite existsb_exists. split.
    + intros ([val args] & Hin & Hval). unfold is_anchor_line in Hval.
      cbn in Hval. apply String.eqb_eq in Hval as ->.
      exists d, args. split; [apply list_elem_of_here|].
      by apply list_elem_of_In.
    + intros (d' & args & Hin & Hline).
      apply list_elem_of_singleton in Hin as ->.
      exists ("anchor", args). split; [by apply list_elem_of_In|done].
Qed.

(** X5.  The history of the two contexts after an accepted configuration: the
    UDP context was given the default options, in the order the map was
    ranged over, then the calls of the lines of the block, in their
    order; the TCP context was given the same calls after its own
    tcp-upstream option. *)
Theorem unboundParse_calls kvs c ub :
  unboundParse kvs c = inl ub →
  calls (u ub)
  = (map (fun kv => SetOption (kv.1 +:+ ":") kv.2) kvs
     ++ flat_map line_call (flat_map Block (Directives c)))%list
  ∧ calls (t ub) = SetOption "tcp-upstream:" "yes" :: calls (u ub)
  ∧ handle (u ub) = 0%nat
  ∧ handle (t ub) = 1%nat.
Proof.
  intros Hp. destruct (New_pool kvs) as (Hu0 & Ht0 & Hhu0 & Hht0 & _).
  apply unboundParse_inv in Hp as [[Hd ->]|(d & hosts & Hd & _ & Hb)].
  - rewrite Hd; cbn. by rewrite app_nil_r.
  - apply parse_block_step in Hb as (Hu & Ht & Hhu & Hht & _).
    cbn -[New] in Hu, Ht, Hhu, Hht. rewrite Hd; cbn. rewrite app_nil_r.
    rewrite Hu, Ht, Ht0, Hu0. repeat split; congruence.
Qed.

(** X6.  The zones of an accepted configuration: the normalized arguments of
    the directive, the normalized keys of the server block when it has no
    argument, and none when the directive does not occur. *)
Theorem unboundParse_from kvs c ub :
  unboundParse kvs c = inl ub →
  (Directives c = [] → from ub = [])
  ∧ (∀ d, d ∈ Directives c →
       (Args d = [] → Forall2 normalizes_to (ServerBlockKeys c) (from ub))
       ∧ (Args d ≠ [] → Forall2 normalizes_to (Args d) (from ub))).
Proof.
  intros Hp. destruct (New_pool kvs) as (_ & _ & _ & _ & _ & Hf0 & _).
  apply unboundParse_inv in Hp as [[Hd ->]|(d & hosts & Hd & Hn & Hb)].
  - split; [done|]. intros d Hin. rewrite Hd in Hin.
    by apply elem_of_nil in Hin.
  - apply parse_block_step in Hb as (_ & _ & _ & _ & _ & Hf & _).
    cbn -[New] in Hf. apply normalize_all_spec in Hn. rewrite <- Hf in Hn.
    split; [by rewrite Hd|]. intros d' Hin. rewrite Hd in Hin.
    apply list_elem_of_singleton in Hin as ->.
    unfold zones_of in Hn. split.
    + intros Hargs. by rewrite Hargs in Hn.
    + intros Hargs. rewrite bool_decide_eq_false_2 in Hn; [done|].
      by destruct (Args d).
Qed.

(** X7.  No zone of an accepted configuration is the empty name, neither in
    [from] nor in [except]. *)
Theorem unboundParse_zones_nonempty kvs c ub :
  unboundParse kvs c = inl ub →
  Forall (fun h => h ≠ "") (from ub) ∧ Forall (fun h => h ≠ "") (except ub).
Proof.
  intros Hp. destruct (New_pool kvs) as (_ & _ & _ & _ & _ & Hf0 & He0).
  apply unboundParse_inv in Hp as [[Hd ->]|(d & hosts & Hd & Hn & Hb)].
  - rewrite Hf0, He0. split; constructor.
  - apply parse_block_step in Hb as (_ & _ & _ & _ & _ & Hf & Hne & _).
    cbn -[New] in Hf, Hne. apply normalize_all_spec, normalizes_nonempty in Hn.
    split; [by rewrite Hf|]. apply Hne. rewrite He0. constructor.
Qed.

(** X8.  A malformed line is answered with the controller's argument error,
    and a block that holds one is never accepted. *)
Theorem malformed_line_rejected val args :
  malformed_line val args →
  (∀ ub, parse_line ub val args = inr (ArgErr val))
  ∧ (∀ lines ub ub',
       (val, args) ∈ lines → parse_block ub lines ≠ inl ub').
Proof.
  intros Hbad.
  assert (∀ ub, parse_line ub val args = inr (ArgErr val)) as Hline.
  { intros ub. unfold parse_line.
    destruct Hbad as [[-> ->]|[[-> Hl]|[[-> Hl]|[[-> Hl]|(H1 & H2 & H3 & H4)]]]];
      cbn -[setOption config setAnchor].
    - done.
    - by destruct args as [|k [|v [|? ?]]].
    - by destruct args as [|f [|? ?]].
    - by destruct args as [|f [|? ?]].
    - destruct (String.eqb_spec val "except"); [done|].
      destruct (String.eqb_spec val "option"); [done|].
      destruct (String.eqb_spec val "config"); [done|].
      by destruct (String.eqb_spec val "anchor"). }
  split; [done|].
  intros lines. induction lines as [|[val' args'] lines IH]; intros ub ub' Hin.
  - by apply elem_of_nil in Hin.
  - cbn. apply elem_of_cons in Hin as [[= <- <-]|Hin].
    + by rewrite Hline.
    + destruct (parse_line ub val' args'); [by apply IH|done].
Qed.

(** X9.  Zones to leave out replace one another: after an accepted block,
    [except] holds the normalized zones of its last except line and
    nothing of the lines before. *)
Theorem last_except_wins lines rest args ub ub' :
  parse_block ub (lines ++ ("except", args) :: rest) = inl ub' →
  Forall (fun line => line.1 ≠ "except") rest →
  Forall2 normalizes_to args (except ub').
Proof.
  intros Hb Hrest.
  apply parse_block_app_inv in Hb as (ub1 & _ & Hb).
  cbn -[parse_line] in Hb.
  destruct (parse_line ub1 "except" args) as [ub2|e] eqn:Hl; [|done].
  apply parse_line_step in Hl as (_ & _ & _ & _ & _ & _ & _ & Hexc).
  specialize (Hexc eq_refl).
  apply parse_block_step in Hb as (_ & _ & _ & _ & _ & _ & _ & Hkeep).
  rewrite (Hkeep Hrest). by apply normalize_all_spec in Hexc.
Qed.

End parse_properties.

(** ** The pool, once more *)

Section pool_properties.
Context `{Env}.

(** X10.  config and setAnchor succeed exactly when both contexts accept the
    file. *)
Theorem file_loaded_iff_both_accept ub f :
  ((config ub f).2 = None
   ↔ ub_reply (u ub) (Config f) = None ∧ ub_reply (t ub) (Config f) = None)
  ∧ ((setAnchor ub f).2 = None
     ↔ ub_reply (u ub) (AddTaFile f) = None
       ∧ ub_reply (t ub) (AddTaFile f) = None).
Proof.
  split.
  - destruct (ub_reply (u ub) (Config f)) as [e|] eqn:Hu.
    + destruct (config_udp_fails ub f e Hu) as (-> & _).
      split; [done|]. by intros [? _].
    + destruct (config_udp_succeeds ub f Hu) as (-> & _).
      destruct (ub_reply (t ub) (Config f)); cbn; split; try done.
      by intros [_ ?].
  - destruct (ub_reply (u ub) (AddTaFile f)) as [e|] eqn:Hu.
    + destruct (setAnchor_udp_fails ub f e Hu) as (-> & _).
      split; [done|]. by intros [? _].
    + destruct (setAnchor_udp_succeeds ub f Hu) as (-> & _).
      destruct (ub_reply (t ub) (AddTaFile f)); cbn; split; try done.
      by intros [_ ?].
Qed.

(** X11.  Whatever the order in which the default options are ranged over,
    New gives both contexts the two cache sizes of zero and nothing
    else, but for the tcp-upstream option that only the TCP context is
    given; the plugin starts without zones and not strict. *)
Theorem New_defaults kvs :
  kvs ≡ₚ map_to_list options →
  (calls (u (New kvs).1)
     ≡ₚ [SetOption "msg-cache-size:" "0"; SetOption "rrset-cache-size:" "0"])
  ∧ calls (t (New kvs).1)
    = SetOption "tcp-upstream:" "yes" :: calls (u (New kvs).1)
  ∧ (SetOption "tcp-upstream:" "yes" ∉ calls (u (New kvs).1))
  ∧ strict (New kvs).1 = false
  ∧ from (New kvs).1 = []
  ∧ except (New kvs).1 = [].
Proof.
  intros Hperm.
  destruct (New_pool kvs) as (Hu & Ht & _ & _ & Hs & Hf & He).
  assert (calls (u (New kvs).1)
            ≡ₚ [SetOption "msg-cache-size:" "0";
                SetOption "rrset-cache-size:" "0"]) as Hcalls.
  { rewrite Hu, Hperm.
    assert (map_to_list options
            = [("msg-cache-size", "0"); ("rrset-cache-size", "0")]) as ->
      by (vm_compute; reflexivity).
    done. }
  split; [done|]. split; [done|]. split; [|done].
  rewrite Hcalls. intros Hin.
  apply elem_of_cons in Hin as [[=]|Hin].
  apply elem_of_cons in Hin as [[=]|Hin].
  by apply elem_of_nil in Hin.
Qed.

End pool_properties.

(** ** The loop over the additional section, once more *)

Lemma remove_first_OPT_keeps_others (l : list RR) :
  List.filter (fun rr => negb (is_OPT rr)) (remove_first_OPT l)
  = List.filter (fun rr => negb (is_OPT rr)) l.
Proof.
  induction l as [|rr l IH]; cbn; [done|].
  destruct (is_OPT rr) eqn:Hrr; cbn; [done|]. by rewrite Hrr, IH.
Qed.

Lemma remove_first_OPT_count (l : list RR) :
  length (List.filter is_OPT (remove_first_OPT l))
  = pred (length (List.filter is_OPT l)).
Proof.
  induction l as [|rr l IH]; cbn; [done|].
  destruct (is_OPT rr) eqn:Hrr; cbn; [done|]. by rewrite Hrr.
Qed.

Lemma filter_OPT_nil_no_OPT (l : list RR) :
  List.filter is_OPT l = [] → no_OPT l.
Proof.
  induction l as [|rr l IH]; cbn; [by constructor|].
  destruct (is_OPT rr) eqn:Hrr; [done|]. intros Hl.
  constructor; [done|]. by apply IH.
Qed.

(** X15.  The loop never removes a record of another type: the records that
    are not OPT records come out as they went in, in their order. *)
Theorem strip_OPT_keeps_others (extra : list RR) :
  List.filter (fun rr => negb (is_OPT rr)) (strip_OPT extra)
  = List.filter (fun rr => negb (is_OPT rr)) extra.
Proof. rewrite strip_OPT_spec. apply remove_first_OPT_keeps_others. Qed.

(** X16.  The loop takes one OPT record away when there is one: the section
    comes out with one OPT record less, and so without any when it went
    in with at most one; it comes out shorter by one record, or as long
    as it was when it held no OPT record. *)
Theorem strip_OPT_count (extra : list RR) :
  length (List.filter is_OPT (strip_OPT extra))
  = pred (length (List.filter is_OPT extra))
  ∧ ((length (List.filter is_OPT extra) <= 1)%nat → no_OPT (strip_OPT extra))
  ∧ length (strip_OPT extra)
    = (length extra - (if existsb is_OPT extra then 1 else 0))%nat.
Proof.
  rewrite strip_OPT_spec. split; [apply remove_first_OPT_count|]. split.
  - intros Hle. apply filter_OPT_nil_no_OPT.
    pose proof (remove_first_OPT_count extra) as Hc.
    destruct (List.filter is_OPT (remove_first_OPT extra)); [done|].
    cbn in Hc. lia.
  - induction extra as [|rr l IH]; cbn; [done|].
    destruct (is_OPT rr) eqn:Hrr; cbn; [lia|].
    rewrite IH. destruct (existsb is_OPT l) eqn:Hex; [|lia].
    apply existsb_exists in Hex as (x & Hin & _).
    destruct l; [done|]. cbn. lia.
Qed.

(** ** ServeDNS, path by path *)

Section serve_properties.
Context `{Env}.

(** The six ways through ServeDNS for a query in scope. *)
Lemma ServeDNS_cases ub server r w :
  u_match ub r = true →
  (∃ res e,
     resolve ub r = (Some res, Some e)
     ∧ ServeDNS ub server r w
       = (measured server "SERVFAIL" (Rtt res) w,
          Returns (RcodeServerFailure, Some e)))
  ∨ (∃ res pkt,
       resolve ub r = (Some res, None) ∧ AnswerPacket res = Some pkt
       ∧ Questions pkt = None
       ∧ ServeDNS ub server r w
         = (measured server (rcode_label (Rcode pkt)) (Rtt res) w,
            Returns (RcodeServerFailure, None)))
  ∨ (∃ res pkt,
       resolve ub r = (Some res, None) ∧ AnswerPacket res = Some pkt
       ∧ strict ub = true ∧ Bogus res = true
       ∧ ServeDNS ub server r w
         = (measured server (rcode_label (Rcode pkt)) (Rtt res) w,
            Returns (RcodeServerFailure,
                     Some (errors_New (WhyBogus res)))))
  ∨ (∃ res pkt,
       resolve ub r = (Some res, None) ∧ AnswerPacket res = Some pkt
       ∧ strict ub && Bogus res = false
       ∧ ServeDNS ub server r w
         = (wrote (answer_for r pkt)
              (measured server (rcode_label (Rcode pkt)) (Rtt res) w),
            Returns (0, None)))
  ∨ (∃ res,
       resolve ub r = (Some res, None) ∧ AnswerPacket res = None
       ∧ ServeDNS ub server r w = (w, Panics))
  ∨ (∃ err,
       resolve ub r = (None, err)
       ∧ ServeDNS ub server r w
         = (match err with
            | Some _ => counted server "SERVFAIL" w
            | None => w
            end, Panics)).
Proof.
  intros Hm. destruct (resolve ub r) as [[res|] err] eqn:Hr.
  - destruct err as [e|].
    { left. exists res, e. split; [done|]. by apply (ServeDNS_engine_error ub server r w res e). }
    destruct (AnswerPacket res) as [pkt|] eqn:Hp.
    + destruct (Questions pkt) as [q|] eqn:Hq.
      * assert (Questions pkt ≠ None) as Hq' by (by rewrite Hq).
        destruct (strict ub && Bogus res) eqn:Hsb.
        -- apply andb_true_iff in Hsb as [Hs Hb].
           right; right; left. exists res, pkt.
           repeat (split; [done|]). by apply (ServeDNS_bogus ub server r w res pkt).
        -- right; right; right; left. exists res, pkt.
           repeat (split; [done|]). by apply (ServeDNS_answer ub server r w res pkt).
      * right; left. exists res, pkt.
        repeat (split; [done|]). by apply (ServeDNS_no_question ub server r w res pkt).
    + right; right; right; right; left. exists res.
      repeat (split; [done|]). by apply (ServeDNS_nil_packet ub server r w res).
  - right; right; right; right; right. exists err.
    split; [done|]. by apply (ServeDNS_nil_result ub server r w err).
Qed.

(** X12.  For a query in scope ServeDNS ends in one of three ways.  It returns
    0 without error after writing exactly one message, which carries the
    identifier of the query; or it returns SERVFAIL, with an error or
    without; or it panics: and in the last two cases nothing is written
    to the requester. *)
Theorem ServeDNS_outcomes ub server r w w' out :
  u_match ub r = true →
  ServeDNS ub server r w = (w', out) →
  (out = Returns (0, None)
   ∧ ∃ m, written w' = (written w ++ [m])%list ∧ Id m = ReqId r)
  ∨ ((out = Panics ∨ ∃ e, out = Returns (RcodeServerFailure, e))
     ∧ written w' = written w).
Proof.
  intros Hm Hrun.
  destruct (ServeDNS_cases ub server r w Hm)
    as [(res & e & _ & Hs)
       |[(res & pkt & _ & _ & _ & Hs)
        |[(res & pkt & _ & _ & _ & _ & Hs)
         |[(res & pkt & _ & _ & _ & Hs)
          |[(res & _ & _ & Hs)|(err & _ & Hs)]]]]];
    rewrite Hs in Hrun; injection Hrun as <- <-.
  - right. split; [right; eauto|done].
  - right. split; [right; eauto|done].
  - right. split; [right; eauto|done].
  - left. split; [done|]. exists (answer_for r pkt). done.
  - right. split; [by left|done].
  - right. split; [by left|]. by destruct err.
Qed.

(** X13.  Under the strict flag an answer flagged bogus is never written to the
    requester, whatever else the engine returned with it. *)
Theorem strict_bogus_never_written ub server r w :
  u_match ub r = true →
  strict ub = true →
  (∀ res, (resolve ub r).1 = Some res → Bogus res = true) →
  written (ServeDNS ub server r w).1 = written w.
Proof.
  intros Hm Hstrict Hbogus.
  destruct (ServeDNS_cases ub server r w Hm)
    as [(res & e & _ & Hs)
       |[(res & pkt & _ & _ & _ & Hs)
        |[(res & pkt & _ & _ & _ & _ & Hs)
         |[(res & pkt & Hr & _ & Hsb & Hs)
          |[(res & _ & _ & Hs)|(err & _ & Hs)]]]]];
    rewrite Hs; try done.
  - rewrite Hstrict, (Hbogus res) in Hsb; [done|]. by rewrite Hr.
  - by destruct err.
Qed.

Lemma counter_bounds (c : gmap (string * string) nat)
    (key k : string * string) :
  (default 0 (c !! k)
   <= default 0 (<[key := S (default 0 (c !! key))]> c !! k)
   <= S (default 0 (c !! k)))%nat.
Proof.
  destruct (decide (key = k)) as [->|Hne].
  - rewrite lookup_insert_eq; cbn. lia.
  - rewrite lookup_insert_ne by done. lia.
Qed.

(** X14.  One query moves the metrics of its own server only, and only
    upwards: the counters of the other servers and their histograms are
    as they were, every counter is what it was or one more, and the
    observations of the server are what they were, possibly followed by
    new ones. *)
Theorem metrics_frame ub server r w w' out :
  u_match ub r = true →
  ServeDNS ub server r w = (w', out) →
  (∀ s rc, s ≠ server → RcodeCount w' !! (s, rc) = RcodeCount w !! (s, rc))
  ∧ (∀ k, (default 0 (RcodeCount w !! k) <= default 0 (RcodeCount w' !! k)
           <= S (default 0 (RcodeCount w !! k)))%nat)
  ∧ (∀ s, s ≠ server → RequestDuration w' !! s = RequestDuration w !! s)
  ∧ (default [] (RequestDuration w !! server)
       `prefix_of` default [] (RequestDuration w' !! server)).
Proof.
  intros Hm Hrun.
  assert (∀ rc d w0,
            (w0 = measured server rc d w ∨ w0 = counted server rc w
             ∨ w0 = w) →
            (∀ s rc, s ≠ server →
                     RcodeCount w0 !! (s, rc) = RcodeCount w !! (s, rc))
            ∧ (∀ k, (default 0 (RcodeCount w !! k)
                     <= default 0 (RcodeCount w0 !! k)
                     <= S (default 0 (RcodeCount w !! k)))%nat)
            ∧ (∀ s, s ≠ server →
                    RequestDuration w0 !! s = RequestDuration w !! s)
            ∧ (default [] (RequestDuration w !! server)
                 `prefix_of` default [] (RequestDuration w0 !! server)))
    as Hframe.
  { intros rc d w0 [->|[->| ->]]; cbn.
    - split; [|split; [|split]].
      + intros s rc' Hs. rewrite lookup_insert_ne; [done|congruence].
      + intros k. apply counter_bounds.
      + intros s Hs. by rewrite lookup_insert_ne.
      + rewrite lookup_insert_eq; cbn. by apply prefix_app_r.
    - split; [|split; [|split]].
      + intros s rc' Hs. rewrite lookup_insert_ne; [done|congruence].
      + intros k. apply counter_bounds.
      + intros s Hs. by rewrite lookup_insert_ne.
      + by rewrite lookup_insert_eq.
    - split; [done|]. split; [intros k; lia|]. done. }
  destruct (ServeDNS_cases ub server r w Hm)
    as [(res & e & _ & Hs)
       |[(res & pkt & _ & _ & _ & Hs)
        |[(res & pkt & _ & _ & _ & _ & Hs)
         |[(res & pkt & _ & _ & _ & Hs)
          |[(res & _ & _ & Hs)|(err & _ & Hs)]]]]];
    rewrite Hs in Hrun; injection Hrun as <- <-.
  - eapply Hframe; eauto.
  - eapply Hframe; eauto.
  - eapply Hframe; eauto.
  - apply (Hframe (rcode_label (Rcode pkt)) (Rtt res)
             (measured server (rcode_label (Rcode pkt)) (Rtt res) w)).
    by left.
  - apply (Hframe "" 0 w). by right; right.
  - destruct err.
    + apply (Hframe "SERVFAIL" 0 (counted server "SERVFAIL" w)).
      by right; left.
    + apply (Hframe "" 0 w). by right; right.
Qed.

End serve_properties.

(** ** The labels of the counter *)

Lemma Itoa_parses (z : Z) : NilZero.int_of_string (Itoa z) = Some (Z.to_int z).
Proof.
  unfold Itoa. apply NilZero.isi; destruct z; cbn; try discriminate;
    intros [= E]; by apply Unsigned.to_uint_nonnil in E.
Qed.

Lemma Itoa_inj (a b : Z) : Itoa a = Itoa b → a = b.
Proof.
  intros Heq. apply DecimalZ.to_int_inj.
  pose proof (Itoa_parses a) as Ha. rewrite Heq, Itoa_parses in Ha.
  by injection Ha.
Qed.

Ltac named_rcode H :=
  apply elem_of_list_to_map_2 in H;
  repeat (apply elem_of_cons in H as [H|H]; [injection H as -> ->|]);
  [..|by apply elem_of_nil in H].

(** X17.  Two response codes never share a label: the names of the table are
    all different, and none of them reads as the decimal form of a
    number. *)
Theorem rcode_label_inj (a b : Z) :
  a ≠ b → rcode_label a ≠ rcode_label b.
Proof.
  intros Hne Heq. apply Hne. clear Hne. unfold rcode_label in Heq.
  destruct (RcodeToString !! a) as [sa|] eqn:Ha;
    destruct (RcodeToString !! b) as [sb|] eqn:Hb.
  - unfold RcodeToString in Ha, Hb.
    named_rcode Ha; named_rcode Hb; (reflexivity || discriminate Heq).
  - pose proof (Itoa_parses b) as Hp. rewrite <- Heq in Hp.
    unfold RcodeToString in Ha. named_rcode Ha; discriminate Hp.
  - pose proof (Itoa_parses a) as Hp. rewrite Heq in Hp.
    unfold RcodeToString in Hb. named_rcode Hb; discriminate Hp.
  - by apply Itoa_inj.
Qed.

Lemma rcode_label_inj_witness :
  rcode_label 0 = "NOERROR" ∧ rcode_label 12 = "12"
  ∧ rcode_label 0 ≠ rcode_label 12.
Proof.
  split; [reflexivity|]. split; [reflexivity|].
  apply (rcode_label_inj 0 12). discriminate.
Defined.

(** ** The further properties at work *)

Lemma normalize_all_spec_witness :
  @normalize_all env_quiet "from" ["example.org."; "example.net."]
  = inl ["example.org."; "example.net."].
Proof.
  apply (@normalize_all_spec env_quiet).
  repeat constructor; done.
Defined.

Lemma normalize_all_first_failure_witness :
  @normalize_all env_quiet "except" ["example.org."; ""; "example.net."]
  = inr (errors_New
           "Invalid 'except' value should be normalizable as a non-empty domain name: ").
Proof.
  apply (@normalize_all_first_failure env_quiet "except"
           ["example.org."] ["example.net."] ["example.org."] "").
  - repeat constructor; done.
  - intros h [Hn Hne]. injection Hn as <-. by apply Hne.
Defined.

Lemma unboundParse_once_witness :
  @unboundParse env_quiet (map_to_list options) c_twice = inr ErrOnce.
Proof.
  destruct (@unboundParse_once env_quiet (map_to_list options) ["."]
              {| Args := ["example.org."]; Block := [] |}
              {| Args := ["example.net."]; Block := [] |} []) as [_ Honce].
  destruct (@unboundParse env_quiet (map_to_list options)
              {| Directives := [{| Args := ["example.org."]; Block := [] |}];
                 ServerBlockKeys := ["."] |}) as [ub|e] eqn:Hp;
    [|vm_compute in Hp; discriminate Hp].
  exact (Honce ub eq_refl).
Defined.

Lemma unboundParse_strict_iff_witness :
  ∃ ub,
    @unboundParse env_quiet (map_to_list options) c_full = inl ub
    ∧ strict ub = true.
Proof.
  destruct (@unboundParse env_quiet (map_to_list options) c_full)
    as [ub|e] eqn:Hp; [|vm_compute in Hp; discriminate Hp].
  exists ub. split; [reflexivity|].
  apply (@unboundParse_strict_iff env_quiet (map_to_list options) c_full ub Hp).
  eexists _, ["root.key"]. split; [apply list_elem_of_here|].
  cbn. do 4 apply list_elem_of_further. apply list_elem_of_here.
Defined.

Lemma unboundParse_calls_witness :
  ∃ ub,
    @unboundParse env_quiet (map_to_list options) c_full = inl ub
    ∧ calls (u ub)
      = [SetOption "msg-cache-size:" "0"; SetOption "rrset-cache-size:" "0";
         SetOption "qname-minimisation:" "yes"; Config "unbound.conf";
         AddTaFile "root.key"]
    ∧ calls (t ub) = SetOption "tcp-upstream:" "yes" :: calls (u ub).
Proof.
  destruct (@unboundParse env_quiet (map_to_list options) c_full)
    as [ub|e] eqn:Hp; [|vm_compute in Hp; discriminate Hp].
  exists ub. split; [reflexivity|].
  destruct (@unboundParse_calls env_quiet (map_to_list options) c_full ub Hp)
    as (Hu & Ht & _).
  split; [exact Hu|exact Ht].
Defined.

Lemma unboundParse_from_witness :
  ∃ ub,
    @unboundParse env_quiet (map_to_list options) c_full = inl ub
    ∧ Forall2 (@normalizes_to env_quiet) ["example.org."; "example.net."]
        (from ub).
Proof.
  destruct (@unboundParse env_quiet (map_to_list options) c_full)
    as [ub|e] eqn:Hp; [|vm_compute in Hp; discriminate Hp].
  exists ub. split; [reflexivity|].
  destruct (@unboundParse_from env_quiet (map_to_list options) c_full ub Hp)
    as [_ Hd].
  destruct (Hd _ (list_elem_of_here _ _)) as [Hkeys _].
  exact (Hkeys eq_refl).
Defined.

Lemma unboundParse_zones_nonempty_witness :
  ∃ ub,
    @unboundParse env_quiet (map_to_list options) c_full = inl ub
    ∧ Forall (fun h => h ≠ "") (from ub)
    ∧ Forall (fun h => h ≠ "") (except ub).
Proof.
  destruct (@unboundParse env_quiet (map_to_list options) c_full)
    as [ub|e] eqn:Hp; [|vm_compute in Hp; discriminate Hp].
  exists ub. split; [reflexivity|].
  exact (@unboundParse_zones_nonempty env_quiet (map_to_list options)
           c_full ub Hp).
Defined.

Lemma malformed_line_rejected_witness :
  @parse_line env_quiet (pool false) "option" ["qname-minimisation"]
  = inr (@ArgErr env_quiet "option")
  ∧ @parse_line env_quiet (pool false) "forward" ["9.9.9.9"]
    = inr (@ArgErr env_quiet "forward").
Proof.
  split.
  - apply (@malformed_line_rejected env_quiet "option" ["qname-minimisation"]).
    right; left. split; [reflexivity|]. cbn. lia.
  - apply (@malformed_line_rejected env_quiet "forward" ["9.9.9.9"]).
    do 4 right. repeat split; discriminate.
Defined.

Lemma last_except_wins_witness :
  ∃ ub,
    @unboundParse env_quiet (map_to_list options) c_full = inl ub
    ∧ Forall2 (@normalizes_to env_quiet)
        ["lab.example.org."; "test.example.org."] (except ub).
Proof.
  destruct (@unboundParse env_quiet (map_to_list options) c_full)
    as [ub|e] eqn:Hp; [|vm_compute in Hp; discriminate Hp].
  exists ub. split; [reflexivity|].
  apply (@unboundParse_inv env_quiet) in Hp
    as [[Hd _]|(d & hosts & Hd & _ & Hb)]; [discriminate Hd|].
  injection Hd as <-.
  apply (@last_except_wins env_quiet
           [("except", ["internal.example.org."]);
            ("option", ["qname-minimisation"; "yes"]);
            ("config", ["unbound.conf"])]
           [("anchor", ["root.key"])]
           ["lab.example.org."; "test.example.org."] _ ub Hb).
  repeat constructor. discriminate.
Defined.

Lemma New_defaults_witness :
  (calls (u (@New env_all_refuse
               [("rrset-cache-size", "0"); ("msg-cache-size", "0")]).1)
     ≡ₚ [SetOption "msg-cache-size:" "0"; SetOption "rrset-cache-size:" "0"])
  ∧ strict (@New env_all_refuse
              [("rrset-cache-size", "0"); ("msg-cache-size", "0")]).1 = false.
Proof.
  assert ([("rrset-cache-size", "0"); ("msg-cache-size", "0")]
            ≡ₚ map_to_list options) as Hperm.
  { change (map_to_list options)
      with [("msg-cache-size", "0"); ("rrset-cache-size", "0")].
    apply perm_swap. }
  destruct (@New_defaults env_all_refuse _ Hperm) as (Hu & _ & _ & Hs & _).
  split; [exact Hu|exact Hs].
Defined.

Lemma ServeDNS_outcomes_witness :
  ∃ m,
    written (@ServeDNS (env_answering answer_two_OPT) (pool false) server0
               (query "udp" false) world0).1 = [m]
    ∧ Id m = 7.
Proof.
  destruct (@ServeDNS_outcomes (env_answering answer_two_OPT) (pool false)
              server0 (query "udp" false) world0 _ _ eq_refl
              (surjective_pairing _))
    as [(_ & m & Hw & Hid)|([Hout|(e & Hout)] & _)].
  - exists m. split; [exact Hw|exact Hid].
  - vm_compute in Hout. discriminate Hout.
  - vm_compute in Hout. discriminate Hout.
Defined.

Lemma strict_bogus_never_written_witness :
  written (@ServeDNS (env_answering answer_bogus) (pool true) server0
             (query "udp" true) world0).1 = [].
Proof.
  apply (@strict_bogus_never_written (env_answering answer_bogus) (pool true)
           server0 (query "udp" true) world0 eq_refl eq_refl).
  intros res Hr. injection Hr as <-. reflexivity.
Defined.

Lemma metrics_frame_witness :
  RcodeCount
    (@ServeDNS (env_answering answer_two_OPT) (pool false) server0
       (query "udp" false) world0).1 !! ("dns://.:5353", "NXDOMAIN") = None.
Proof.
  destruct (@metrics_frame (env_answering answer_two_OPT) (pool false)
              server0 (query "udp" false) world0 _ _ eq_refl
              (surjective_pairing _)) as (Hother & _).
  rewrite Hother; [reflexivity|discriminate].
Defined.

Lemma file_loaded_iff_both_accept_witness :
  (@config env_quiet (pool false) "unbound.conf").2 = None
  ∧ (@setAnchor env_tcp_refuses (pool false) "root.key").2 ≠ None.
Proof.
  destruct (@file_loaded_iff_both_accept env_quiet (pool false)
              "unbound.conf") as [Hc _].
  destruct (@file_loaded_iff_both_accept env_tcp_refuses (pool false)
              "root.key") as [_ Ha].
  split.
  - apply Hc. split; reflexivity.
  - intros Hnone. apply Ha in Hnone as [_ Ht]. discriminate Ht.
Defined.

Lemma strip_OPT_count_witness :
  no_OPT (strip_OPT [a_rr; opt_rr; rrsig_rr])
  ∧ length (strip_OPT [a_rr; opt_rr; rrsig_rr]) = 2%nat.
Proof.
  destruct (strip_OPT_count [a_rr; opt_rr; rrsig_rr]) as (_ & Hnone & Hlen).
  split; [|exact Hlen]. apply Hnone. cbn. lia.
Defined.
